(** * CDP cache of WaykiChain: [src/persistence/cdpdb.h]

    A shallow embedding of the collateralized-debt-position records
    ([CUserCDP]), of the in-memory ratio-ordered index ([CCdpMemCache]) and
    of the persisted cache that pairs an identity store with that index
    ([CCdpDBCache]), followed by the properties established about them.

    The header is the only source file at hand.  What it defines inline is
    embedded from it: the record, its constructors, [operator<], the
    serialization block, [IsEmpty], [SetEmpty], the constructors of the two
    caches, [SetBaseView] and [UndoCdp].  The member functions it only
    declares are modelled from the specification, and say so.  Types that
    come from other headers ([CRegID], the wire format of primitive values)
    are parameters. *)

From Stdlib Require Import ZArith Lia Bool List Zpower Sorted.
From Stdlib Require Import Floats.SpecFloat.
From stdpp Require Import gmap strings list fin_maps.

Open Scope Z_scope.

(* ================================================================== *)
(** * Part I: the embedding                                            *)
(* ================================================================== *)

(** ** Machine integers *)

(** [uint64_t] is a [Z] in [0, 2^64); arithmetic wraps around. *)
Definition uint64_max : Z := 2 ^ 64 - 1.
Definition wrap64 (z : Z) : Z := z mod 2 ^ 64.
Definition is_uint64 (z : Z) : Prop := 0 <= z <= uint64_max.
Definition is_int32 (z : Z) : Prop := - 2 ^ 31 <= z < 2 ^ 31.

(** [uint256] is a [Z] in [0, 2^256); [uint256()] is zero, and two values
    compare as unsigned numbers. *)
Abbreviation uint256 := Z.
Definition is_uint256 (z : Z) : Prop := 0 <= z < 2 ^ 256.
Definition uint256_zero : uint256 := 0.

(** Addresses of objects, for the non-owning [pBase] and [pAccess]
    pointers; [nullptr] is [None]. *)
Abbreviation ptr := N.

(** ** IEEE-754 binary64 *)

(** [double] is the binary64 format of the Standard Library's floating-point
    specification.  Conversion from an unsigned integer rounds to nearest
    even, division is the IEEE division, [==], [<] and [<=] are the IEEE
    comparisons (all false as soon as one side is a NaN). *)
Abbreviation double := spec_float.

Module Double.

Definition prec : Z := 53.
Definition emax : Z := 1024.
Definition of_uint64 (n : Z) : double := binary_normalize prec emax n 0 false.
Definition div (x y : double) : double := SFdiv prec emax x y.
Definition eqb (x y : double) : bool := SFeqb x y.
Definition ltb (x y : double) : bool := SFltb x y.
Definition leb (x y : double) : bool := SFleb x y.
Definition infinity : double := S754_infinity false.

Definition is_nan (x : double) : bool :=
  match x with S754_nan => true | _ => false end.

(** The values an unsigned quotient can take besides NaN: no negative
    zero. *)
Definition ordered (x : double) : bool :=
  match x with S754_nan | S754_zero true => false | _ => true end.

(** Finite values of moderate size, as conversions of 64-bit integers are. *)
Definition small_finite (x : double) : Prop :=
  exists m e, x = S754_finite false m e /\ -52 <= e <= 129 /\ Zpos m < 2 ^ 65.

(** [double(staked) / owed], the expression of the deserializer. *)
Definition ratio_of (staked owed : Z) : double :=
  div (of_uint64 staked) (of_uint64 owed).

End Double.

#[global] Instance spec_float_eq_dec : EqDecision spec_float.
Proof. solve_decision. Defined.

#[global] Instance spec_float_countable : Countable spec_float.
Proof.
  refine (inj_countable'
    (fun x => match x with
              | S754_zero s => inl (inl s)
              | S754_infinity s => inl (inr s)
              | S754_nan => inr (inl tt)
              | S754_finite s m e => inr (inr (s, m, e))
              end)
    (fun y => match y with
              | inl (inl s) => S754_zero s
              | inl (inr s) => S754_infinity s
              | inr (inl _) => S754_nan
              | inr (inr (s, m, e)) => S754_finite s m e
              end) _).
  intros []; reflexivity.
Defined.

(** ** What the other headers provide *)

(** [accounts/id.h]: the account reference [CRegID], with its default
    constructor, [operator==], [operator<] and the raw string under which an
    owner appears in the keys of the store. *)
Class RegIdOps (CRegID : Type) := {
  regid_eq_dec :: EqDecision CRegID;
  regid_countable :: Countable CRegID;
  regid_default : CRegID;
  regid_eq : CRegID -> CRegID -> bool;
  regid_lt : CRegID -> CRegID -> bool;
  regid_raw : CRegID -> string;
}.

(** [==] decides equality and [<] is a strict total order. *)
Class RegIdLaws (CRegID : Type) `{RegIdOps CRegID} : Prop := {
  regid_eq_spec : forall a b, regid_eq a b = true <-> a = b;
  regid_lt_irrefl : forall a, regid_lt a a = false;
  regid_lt_trans : forall a b c,
    regid_lt a b = true -> regid_lt b c = true -> regid_lt a c = true;
  regid_lt_total : forall a b,
    a <> b -> regid_lt a b = true \/ regid_lt b a = true;
}.

(** [serialize.h]: the wire format of the primitive fields.  [READWRITE]
    writes a field with the first function of a pair and reads it back with
    the second, which returns the value and the rest of the stream. *)
Class WireOps (CRegID : Type) := {
  ser_regid : CRegID -> list Byte.byte;
  unser_regid : list Byte.byte -> option (CRegID * list Byte.byte);
  ser_uint256 : uint256 -> list Byte.byte;
  unser_uint256 : list Byte.byte -> option (uint256 * list Byte.byte);
  ser_varint_int32 : Z -> list Byte.byte;
  unser_varint_int32 : list Byte.byte -> option (Z * list Byte.byte);
  ser_varint_uint64 : Z -> list Byte.byte;
  unser_varint_uint64 : list Byte.byte -> option (Z * list Byte.byte);
}.

(** Each primitive reads back what was written, whatever follows it. *)
Class WireLaws (CRegID : Type) `{WireOps CRegID} : Prop := {
  regid_roundtrip : forall r rest,
    unser_regid (ser_regid r ++ rest) = Some (r, rest);
  uint256_roundtrip : forall x rest,
    is_uint256 x -> unser_uint256 (ser_uint256 x ++ rest) = Some (x, rest);
  varint_int32_roundtrip : forall x rest,
    is_int32 x ->
    unser_varint_int32 (ser_varint_int32 x ++ rest) = Some (x, rest);
  varint_uint64_roundtrip : forall x rest,
    is_uint64 x ->
    unser_varint_uint64 (ser_varint_uint64 x ++ rest) = Some (x, rest);
}.

(** The composite key [operator<] compares, the identity of a record, and
    the key of a record in the persisted store, [std::pair<string, uint256>]. *)
Abbreviation OrderKey CRegID := (double * CRegID * uint256)%type.
Abbreviation Identity CRegID := (CRegID * uint256)%type.
Abbreviation CdpKey := (string * uint256)%type.

(** ** [struct CUserCDP] *)

Module UserCDP.

Record CUserCDP (CRegID : Type) := {
  collateralRatioBase : double;   (* mutable, mem-only *)
  ownerRegId : CRegID;
  cdpTxId : uint256;
  blockHeight : Z;                (* int32_t *)
  totalStakedBcoins : Z;          (* uint64_t *)
  totalOwedScoins : Z;            (* uint64_t *)
}.

Arguments collateralRatioBase {CRegID} _.
Arguments ownerRegId {CRegID} _.
Arguments cdpTxId {CRegID} _.
Arguments blockHeight {CRegID} _.
Arguments totalStakedBcoins {CRegID} _.
Arguments totalOwedScoins {CRegID} _.

Section UserCdp.
Context {CRegID : Type} `{!RegIdOps CRegID}.

(** Every field lies in the range of its C++ type. *)
Definition wf_cdp (c : CUserCDP CRegID) : Prop :=
  is_uint256 (cdpTxId c) /\ is_int32 (blockHeight c) /\
  is_uint64 (totalStakedBcoins c) /\ is_uint64 (totalOwedScoins c).

(** [CUserCDP()].  The member initializer list names [blockHeight],
    [totalStakedBcoins] and [totalOwedScoins]; [ownerRegId] and [cdpTxId]
    are default-constructed; [collateralRatioBase], a [double], is left
    with whatever its storage held, here the argument [uninit]. *)
Definition CUserCDP_default (uninit : double) : CUserCDP CRegID :=
  {| collateralRatioBase := uninit;
     ownerRegId := regid_default;
     cdpTxId := uint256_zero;
     blockHeight := 0;
     totalStakedBcoins := 0;
     totalOwedScoins := 0 |}.

(** [CUserCDP(const CRegID &regId, const uint256 &cdpTxIdIn)]. *)
Definition CUserCDP_new (uninit : double) (regId : CRegID)
    (cdpTxIdIn : uint256) : CUserCDP CRegID :=
  {| collateralRatioBase := uninit;
     ownerRegId := regId;
     cdpTxId := cdpTxIdIn;
     blockHeight := 0;
     totalStakedBcoins := 0;
     totalOwedScoins := 0 |}.

(** [bool operator<(const CUserCDP &cdp) const]. *)
Definition CUserCDP_lt (this cdp : CUserCDP CRegID) : bool :=
  if Double.eqb (collateralRatioBase this) (collateralRatioBase cdp) then
    if regid_eq (ownerRegId this) (ownerRegId cdp) then
      cdpTxId this <? cdpTxId cdp
    else
      regid_lt (ownerRegId this) (ownerRegId cdp)
  else
    Double.ltb (collateralRatioBase this) (collateralRatioBase cdp).

(** [bool IsEmpty() const], which asks [cdpTxId.IsEmpty()]: the empty
    sentinel is the record whose cdp id is the zero identifier. *)
Definition IsEmpty (c : CUserCDP CRegID) : bool := cdpTxId c =? 0.

(** [void SetEmpty()]. *)
Definition SetEmpty (c : CUserCDP CRegID) : CUserCDP CRegID :=
  {| collateralRatioBase := collateralRatioBase c;
     ownerRegId := ownerRegId c;
     cdpTxId := uint256_zero;
     blockHeight := 0;
     totalStakedBcoins := 0;
     totalOwedScoins := 0 |}.

Definition order_key (c : CUserCDP CRegID) : OrderKey CRegID :=
  (collateralRatioBase c, ownerRegId c, cdpTxId c).

Definition cdp_id (c : CUserCDP CRegID) : Identity CRegID :=
  (ownerRegId c, cdpTxId c).

Definition cdp_key (c : CUserCDP CRegID) : CdpKey :=
  (regid_raw (ownerRegId c), cdpTxId c).

(** Two records occupy the same slot of a [std::map] or [std::set] ordered
    by [operator<] when neither sorts before the other. *)
Definition same_slot (a b : CUserCDP CRegID) : bool :=
  negb (CUserCDP_lt a b) && negb (CUserCDP_lt b a).

(** The five persisted fields of two records agree. *)
Definition same_persisted (a b : CUserCDP CRegID) : Prop :=
  ownerRegId a = ownerRegId b /\ cdpTxId a = cdpTxId b /\
  blockHeight a = blockHeight b /\
  totalStakedBcoins a = totalStakedBcoins b /\
  totalOwedScoins a = totalOwedScoins b.

(** *** [IMPLEMENT_SERIALIZE] *)

Context `{!WireOps CRegID}.

(** Writing ([fRead] false): the five [READWRITE]s in order. *)
Definition Serialize (c : CUserCDP CRegID) : list Byte.byte :=
  ser_regid (ownerRegId c) ++ ser_uint256 (cdpTxId c) ++
  ser_varint_int32 (blockHeight c) ++
  ser_varint_uint64 (totalStakedBcoins c) ++
  ser_varint_uint64 (totalOwedScoins c).

(** Reading ([fRead] true): the five [READWRITE]s in order, then
    [collateralRatioBase = double(totalStakedBcoins) / totalOwedScoins]. *)
Definition Unserialize (s : list Byte.byte)
  : option (CUserCDP CRegID * list Byte.byte) :=
  match unser_regid s with
  | None => None
  | Some (owner, s1) =>
    match unser_uint256 s1 with
    | None => None
    | Some (txid, s2) =>
      match unser_varint_int32 s2 with
      | None => None
      | Some (height, s3) =>
        match unser_varint_uint64 s3 with
        | None => None
        | Some (staked, s4) =>
          match unser_varint_uint64 s4 with
          | None => None
          | Some (owed, s5) =>
            Some ({| collateralRatioBase := Double.ratio_of staked owed;
                     ownerRegId := owner;
                     cdpTxId := txid;
                     blockHeight := height;
                     totalStakedBcoins := staked;
                     totalOwedScoins := owed |}, s5)
          end
        end
      end
    end
  end.

(** A record as it comes out of the store. *)
Definition decoded (c : CUserCDP CRegID) : Prop :=
  wf_cdp c /\
  collateralRatioBase c =
    Double.ratio_of (totalStakedBcoins c) (totalOwedScoins c).

End UserCdp.

End UserCDP.
Export UserCDP.

(** ** [class CCdpMemCache] *)

Module MemCache.

(** The flag stored with each record, as the header documents it. *)
Definition flag_valid : Z := 0.
Definition flag_invalid : Z := 1.
Definition is_valid (f : Z) : bool := f =? flag_valid.

Section Layer.
Context {CRegID : Type} `{!RegIdOps CRegID}.

(** [map<CUserCDP, uint8_t>] is a [std::map] ordered by [operator<]: its
    nodes in iteration order, each the key object, a record, and the flag
    mapped to it.  The map tells keys apart by [operator<] alone: a key
    belongs to the node whose key sorts neither before nor after it
    ([same_slot]), whatever the other fields of the two records are. *)

(** [find]: the nodes that sort before the key are passed; the first other
    node is the key's own if the key does not sort before it. *)
Fixpoint map_find (k : CUserCDP CRegID) (m : list (CUserCDP CRegID * Z))
  : option (CUserCDP CRegID * Z) :=
  match m with
  | [] => None
  | n :: rest =>
    if CUserCDP_lt (fst n) k then map_find k rest
    else if CUserCDP_lt k (fst n) then None
    else Some n
  end.

(** [m[k] = f]: the node of the key's slot gets the flag and keeps its own
    key object; without such a node one is inserted at the key's place. *)
Fixpoint map_assign (k : CUserCDP CRegID) (f : Z)
    (m : list (CUserCDP CRegID * Z)) : list (CUserCDP CRegID * Z) :=
  match m with
  | [] => [(k, f)]
  | n :: rest =>
    if CUserCDP_lt (fst n) k then n :: map_assign k f rest
    else if CUserCDP_lt k (fst n) then (k, f) :: n :: rest
    else (fst n, f) :: rest
  end.

(** The nodes are in ascending order of their keys. *)
Definition map_sorted (m : list (CUserCDP CRegID * Z)) : Prop :=
  StronglySorted (fun a b => CUserCDP_lt (fst a) (fst b) = true) m.

Record CCdpMemCache := {
  cdps : list (CUserCDP CRegID * Z);
  totalStakedBcoins : Z;
  totalOwedScoins : Z;
  pBase : option ptr;
  pAccess : option ptr;
}.

(** [CCdpMemCache()], [CCdpMemCache(CCdpMemCache *pBaseIn)] and
    [CCdpMemCache(CDBAccess *pAccessIn)]. *)
Definition CCdpMemCache_default : CCdpMemCache :=
  {| cdps := []; totalStakedBcoins := 0; totalOwedScoins := 0;
     pBase := None; pAccess := None |}.

Definition CCdpMemCache_child (pBaseIn : option ptr) : CCdpMemCache :=
  {| cdps := []; totalStakedBcoins := 0; totalOwedScoins := 0;
     pBase := pBaseIn; pAccess := None |}.

Definition CCdpMemCache_global (pAccessIn : option ptr) : CCdpMemCache :=
  {| cdps := []; totalStakedBcoins := 0; totalOwedScoins := 0;
     pBase := None; pAccess := pAccessIn |}.

(** Modelled from the spec: [SetBase], which the header only declares; it
    rebinds the non-owning parent reference and nothing else. *)
Definition SetBase (pBaseIn : option ptr) (L : CCdpMemCache) : CCdpMemCache :=
  {| cdps := cdps L;
     totalStakedBcoins := totalStakedBcoins L;
     totalOwedScoins := totalOwedScoins L;
     pBase := pBaseIn; pAccess := pAccess L |}.

(** The layer holds a node in the slot of [c] with the valid flag. *)
Definition holds_present (L : CCdpMemCache) (c : CUserCDP CRegID) : bool :=
  match map_find c (cdps L) with
  | Some n => is_valid (snd n)
  | None => false
  end.

(** Modelled from the spec: [SaveCdp], which the header only declares.  It
    inserts or overwrites the entry at the record's key as present and adds
    the record's totals to the layer's running totals.  In the header's map
    the entry at a key is its flag, so overwriting is the assignment
    [cdps[userCdp] = 0].  The specification names no failure, so the [bool]
    result is left out. *)
Definition SaveCdp (userCdp : CUserCDP CRegID) (L : CCdpMemCache)
  : CCdpMemCache :=
  {| cdps := map_assign userCdp flag_valid (cdps L);
     totalStakedBcoins :=
       wrap64 (totalStakedBcoins L + UserCDP.totalStakedBcoins userCdp);
     totalOwedScoins :=
       wrap64 (totalOwedScoins L + UserCDP.totalOwedScoins userCdp);
     pBase := pBase L; pAccess := pAccess L |}.

(** Modelled from the spec: [EraseCdp], which the header only declares.  It
    inserts or overwrites the entry at the record's key as tombstoned, the
    assignment [cdps[userCdp] = 1], and subtracts the record's totals from
    the layer's running totals if the entry was present in this layer
    before. *)
Definition EraseCdp (userCdp : CUserCDP CRegID) (L : CCdpMemCache)
  : CCdpMemCache :=
  {| cdps := map_assign userCdp flag_invalid (cdps L);
     totalStakedBcoins :=
       if holds_present L userCdp
       then wrap64 (totalStakedBcoins L - UserCDP.totalStakedBcoins userCdp)
       else totalStakedBcoins L;
     totalOwedScoins :=
       if holds_present L userCdp
       then wrap64 (totalOwedScoins L - UserCDP.totalOwedScoins userCdp)
       else totalOwedScoins L;
     pBase := pBase L; pAccess := pAccess L |}.

End Layer.

Arguments CCdpMemCache CRegID : clear implicits.

Abbreviation chain CRegID := (list (CCdpMemCache CRegID)).

End MemCache.

(** ** The identity store, [CDBMultiValueCache<dbk::CDP, pair<string,
    uint256>, CUserCDP>] *)

Module ValueCache.

Section Store.
Context {CRegID : Type}.

(** What a layer of the store holds under a key: a record, or the mark of
    an erasure that masks the base. *)
Inductive DbEntry :=
  | Stored (c : CUserCDP CRegID)
  | Tombstoned.

(** An undo entry: the key, and what the layer held under it before the
    write, or [None] when it held nothing. *)
Definition DbOpLog : Type := CdpKey * option DbEntry.

(** [CDBOpLogMap], restricted to the CDP prefix: the entries in the order
    they were appended. *)
Definition CDBOpLogMap : Type := list DbOpLog.

(** Modelled from the spec: the cache template of [dbaccess.h], which is
    not among the sources.  A layer maps identity keys to entries and
    refers to its base and to the database. *)
Record CDBMultiValueCache := {
  mapData : gmap CdpKey DbEntry;
  pBase : option ptr;
  pDbAccess : option ptr;
}.

Definition CDBMultiValueCache_default : CDBMultiValueCache :=
  {| mapData := ∅; pBase := None; pDbAccess := None |}.

Definition CDBMultiValueCache_global (pDbAccessIn : option ptr)
  : CDBMultiValueCache :=
  {| mapData := ∅; pBase := None; pDbAccess := pDbAccessIn |}.

Definition SetBase (pBaseIn : option ptr) (M : CDBMultiValueCache)
  : CDBMultiValueCache :=
  {| mapData := mapData M; pBase := pBaseIn; pDbAccess := pDbAccess M |}.

(** Modelled from the spec: the write of a value, appending the prior entry
    or the absent marker to the undo log. *)
Definition SetData (key : CdpKey) (value : CUserCDP CRegID)
    (dbOpLogMap : CDBOpLogMap) (M : CDBMultiValueCache)
  : CDBMultiValueCache * CDBOpLogMap :=
  ({| mapData := <[key := Stored value]> (mapData M);
      pBase := pBase M; pDbAccess := pDbAccess M |},
   dbOpLogMap ++ [(key, mapData M !! key)]).

(** One undo entry applied: the prior entry is put back, and a key that
    was absent before is deleted. *)
Definition undo_entry (l : DbOpLog) (m : gmap CdpKey DbEntry)
  : gmap CdpKey DbEntry :=
  match snd l with
  | Some e => <[fst l := e]> m
  | None => delete (fst l) m
  end.

(** Modelled from the spec: [UndoData], replaying the log in reverse order:
    the entry appended last is undone first. *)
Definition UndoData (dbOpLogMap : CDBOpLogMap) (M : CDBMultiValueCache)
  : bool * CDBMultiValueCache :=
  (true,
   {| mapData := foldr undo_entry (mapData M) dbOpLogMap;
      pBase := pBase M; pDbAccess := pDbAccess M |}).

End Store.

Arguments DbEntry CRegID : clear implicits.
Arguments CDBOpLogMap CRegID : clear implicits.
Arguments CDBMultiValueCache CRegID : clear implicits.

End ValueCache.

(** ** [class CCdpDBCache] *)

Module DBCache.

Section Cache.
Context {CRegID : Type} `{!RegIdOps CRegID}.

Record CCdpDBCache := {
  cdpCache : ValueCache.CDBMultiValueCache CRegID;
  cdpMemCache : MemCache.CCdpMemCache CRegID;
}.

(** Objects live in a store indexed by address, a [gmap ptr CCdpDBCache].
    A pointer to a [CCdpDBCache] also stands for the addresses of its two
    members, which is what [SetBaseView] passes on. *)

(** [CCdpDBCache()]. *)
Definition CCdpDBCache_default : CCdpDBCache :=
  {| cdpCache := ValueCache.CDBMultiValueCache_default;
     cdpMemCache := MemCache.CCdpMemCache_default |}.

(** [CCdpDBCache(CDBAccess *pDbAccess)]. *)
Definition CCdpDBCache_global (pDbAccess : option ptr) : CCdpDBCache :=
  {| cdpCache := ValueCache.CDBMultiValueCache_global pDbAccess;
     cdpMemCache := MemCache.CCdpMemCache_global pDbAccess |}.

(** [CCdpDBCache(CCdpDBCache *pBaseIn)]: the initializers are
    [cdpCache(pBaseIn->cdpCache)] and [cdpMemCache(pBaseIn->cdpMemCache)].
    Their arguments are the member objects themselves, not pointers to
    them, so each member is copy-constructed from the base's member.
    Dereferencing a pointer to nothing has no result. *)
Definition CCdpDBCache_from_base (h : gmap ptr CCdpDBCache) (pBaseIn : ptr)
  : option CCdpDBCache :=
  match h !! pBaseIn with
  | Some b => Some {| cdpCache := cdpCache b; cdpMemCache := cdpMemCache b |}
  | None => None
  end.

(** [void SetBaseView(CCdpDBCache *pBaseIn)]. *)
Definition SetBaseView (pBaseIn : ptr) (db : CCdpDBCache) : CCdpDBCache :=
  {| cdpCache := ValueCache.SetBase (Some pBaseIn) (cdpCache db);
     cdpMemCache := MemCache.SetBase (Some pBaseIn) (cdpMemCache db) |}.

(** An empty layer pair chained under the cache at [pBaseIn]. *)
Definition empty_child (pBaseIn : ptr) : CCdpDBCache :=
  SetBaseView pBaseIn CCdpDBCache_default.

(** The index layers reached from a cache by following [pBase], nearest
    first, as far as [fuel] allows. *)
Fixpoint mem_chain_of (fuel : nat) (h : gmap ptr CCdpDBCache)
    (L : MemCache.CCdpMemCache CRegID) : MemCache.chain CRegID :=
  L :: match fuel with
       | O => []
       | S fuel' =>
         match MemCache.pBase L with
         | Some p =>
           match h !! p with
           | Some b => mem_chain_of fuel' h (cdpMemCache b)
           | None => []
           end
         | None => []
         end
       end.

(** Modelled from the spec: [SaveCdp(cdp, dbOpLogMap)], which the header
    only declares: a write to the identity store, logged, mirrored into the
    index. *)
Definition SaveCdp_log (cdp : CUserCDP CRegID)
    (dbOpLogMap : ValueCache.CDBOpLogMap CRegID) (db : CCdpDBCache)
  : bool * ValueCache.CDBOpLogMap CRegID * CCdpDBCache :=
  let '(M, log) := ValueCache.SetData (cdp_key cdp) cdp dbOpLogMap (cdpCache db) in
  (true, log, {| cdpCache := M; cdpMemCache := MemCache.SaveCdp cdp (cdpMemCache db) |}).

(** [SaveCdp(cdp)], the first-time creation: no undo entry is kept. *)
Definition SaveCdp (cdp : CUserCDP CRegID) (db : CCdpDBCache)
  : bool * CCdpDBCache :=
  let '(ok, _, db') := SaveCdp_log cdp [] db in (ok, db').

(** The additions of a stake would overflow a 64-bit total. *)
Definition stake_overflows (bcoinsToStake mintedScoins : Z)
    (cdp : CUserCDP CRegID) : bool :=
  (uint64_max <? totalStakedBcoins cdp + bcoinsToStake) ||
  (uint64_max <? totalOwedScoins cdp + mintedScoins).

(** The record a stake leaves in [cdp]: for the empty sentinel the amounts
    of a new position, otherwise the accumulated ones; the ratio is the one
    the record is indexed under afterwards. *)
Definition staked_cdp (blockHeight bcoinsToStake mintedScoins : Z)
    (cdp : CUserCDP CRegID) : CUserCDP CRegID :=
  let staked := if IsEmpty cdp then bcoinsToStake
                else totalStakedBcoins cdp + bcoinsToStake in
  let owed := if IsEmpty cdp then mintedScoins
              else totalOwedScoins cdp + mintedScoins in
  {| collateralRatioBase := Double.ratio_of staked owed;
     ownerRegId := ownerRegId cdp;
     cdpTxId := cdpTxId cdp;
     blockHeight := blockHeight;
     totalStakedBcoins := staked;
     totalOwedScoins := owed |}.

(** Modelled from the spec: [StakeBcoinsToCdp], which the header only
    declares.  A new position (empty sentinel) takes the amounts as they
    are.  An update fails, with nothing changed, if an addition would
    overflow; otherwise the index entry under the current ratio is erased
    first.  The new record is then written to the identity store, with its
    undo entry, and saved into the index under the new ratio.  [cdp] is an
    in-out argument. *)
Definition StakeBcoinsToCdp (blockHeight bcoinsToStake mintedScoins : Z)
    (cdp : CUserCDP CRegID) (dbOpLogMap : ValueCache.CDBOpLogMap CRegID)
    (db : CCdpDBCache)
  : bool * CUserCDP CRegID * ValueCache.CDBOpLogMap CRegID * CCdpDBCache :=
  if IsEmpty cdp then
    let cdp' := staked_cdp blockHeight bcoinsToStake mintedScoins cdp in
    let '(ok, log, db') := SaveCdp_log cdp' dbOpLogMap db in
    (ok, cdp', log, db')
  else if stake_overflows bcoinsToStake mintedScoins cdp then
    (false, cdp, dbOpLogMap, db)
  else
    let db1 := {| cdpCache := cdpCache db;
                  cdpMemCache := MemCache.EraseCdp cdp (cdpMemCache db) |} in
    let cdp' := staked_cdp blockHeight bcoinsToStake mintedScoins cdp in
    let '(ok, log, db') := SaveCdp_log cdp' dbOpLogMap db1 in
    (ok, cdp', log, db').

(** [bool UndoCdp(CDBOpLogMap &dbOpLogMap)]: the undo of the identity
    store alone. *)
Definition UndoCdp (dbOpLogMap : ValueCache.CDBOpLogMap CRegID)
    (db : CCdpDBCache) : bool * CCdpDBCache :=
  let '(ok, M) := ValueCache.UndoData dbOpLogMap (cdpCache db) in
  (ok, {| cdpCache := M; cdpMemCache := cdpMemCache db |}).

End Cache.

Arguments CCdpDBCache CRegID : clear implicits.

Abbreviation heap CRegID := (gmap ptr (CCdpDBCache CRegID)).

End DBCache.

(** ** A reference instance of the parameters *)

(** Account references are natural numbers with their usual order, the raw
    string of an owner is a run of as many letters, and every primitive goes
    on the wire in unary (with a sign byte in front of a signed number).
    The instance shows that the laws asked of the parameters can be met, and
    gives concrete records to evaluate the definitions on. *)
Module Reference.

Definition raw_of_N (n : N) : string :=
  N.iter n (String.append "r") EmptyString.

#[export] Instance regid_N : RegIdOps N :=
  {| regid_default := 0%N;
     regid_eq := N.eqb;
     regid_lt := N.ltb;
     regid_raw := raw_of_N |}.

Definition ser_unary (n : N) : list Byte.byte :=
  repeat Byte.x01 (N.to_nat n) ++ [Byte.x00].

Fixpoint unser_unary (s : list Byte.byte) : option (N * list Byte.byte) :=
  match s with
  | Byte.x00 :: rest => Some (0%N, rest)
  | Byte.x01 :: rest =>
    match unser_unary rest with
    | Some (n, rest') => Some (N.succ n, rest')
    | None => None
    end
  | _ => None
  end.

Definition ser_signed (z : Z) : list Byte.byte :=
  (if z <? 0 then Byte.x01 else Byte.x00) :: ser_unary (Z.abs_N z).

Definition unser_signed (s : list Byte.byte) : option (Z * list Byte.byte) :=
  match s with
  | Byte.x00 :: rest =>
    match unser_unary rest with
    | Some (n, rest') => Some (Z.of_N n, rest')
    | None => None
    end
  | Byte.x01 :: rest =>
    match unser_unary rest with
    | Some (n, rest') => Some (- Z.of_N n, rest')
    | None => None
    end
  | _ => None
  end.

#[export] Instance wire_N : WireOps N :=
  {| ser_regid := ser_unary;
     unser_regid := unser_unary;
     ser_uint256 := ser_signed;
     unser_uint256 := unser_signed;
     ser_varint_int32 := ser_signed;
     unser_varint_int32 := unser_signed;
     ser_varint_uint64 := ser_signed;
     unser_varint_uint64 := unser_signed |}.

(** A record as the deserializer builds it from its persisted fields. *)
Definition mk_cdp (owner : N) (txid : uint256) (height staked owed : Z)
  : CUserCDP N :=
  {| collateralRatioBase := Double.ratio_of staked owed;
     ownerRegId := owner;
     cdpTxId := txid;
     blockHeight := height;
     totalStakedBcoins := staked;
     totalOwedScoins := owed |}.

(** Two records that staked nothing and owe nothing, of different owners,
    and one that owes as much as it staked. *)
Definition cdp_idle_1 : CUserCDP N := mk_cdp 1 1 0 0 0.
Definition cdp_idle_2 : CUserCDP N := mk_cdp 2 2 0 0 0.
Definition cdp_par : CUserCDP N := mk_cdp 3 3 0 1 1.

(** A record without debt. *)
Definition cdp_debt_free : CUserCDP N := mk_cdp 4 4 0 5 0.

(** The position of [cdp_par] after one more coin was staked: the same
    identity under another ratio. *)
Definition cdp_par_more : CUserCDP N := mk_cdp 3 3 0 2 1.

(** A root cache that holds [cdp_par], at address 1. *)
Definition root_ptr : ptr := 1%N.

Definition root_with_par : DBCache.CCdpDBCache N :=
  snd (DBCache.SaveCdp cdp_par DBCache.CCdpDBCache_default).

(** The two positions of the scenario of the specification: A stakes
    1,000,000 and mints 500,000, B stakes 100,000 and mints 100,000. *)
Definition cdp_a : CUserCDP N := mk_cdp 10 100 0 1000000 500000.
Definition cdp_b : CUserCDP N := mk_cdp 20 200 0 100000 100000.

End Reference.

(** ** [Object CUserCDP::ToJson()] *)

Module Json.

(** The values of json_spirit that [ToJson] builds: a string, an [int], a
    [uint64_t] and a [double]; an [Object] is the vector of its pairs in
    the order they were pushed. *)
Inductive Value :=
  | Value_str (s : string)
  | Value_int (z : Z)
  | Value_uint64 (z : Z)
  | Value_real (d : double).

Definition Object : Type := list (string * Value).

(** [accounts/id.h] and [uint256.h]: the printed form of an owner,
    [CRegID::ToString()], and of an identifier, [uint256::GetHex()]. *)
Class DisplayOps (CRegID : Type) := {
  regid_ToString : CRegID -> string;
  uint256_GetHex : uint256 -> string;
}.

(** Different owners and different identifiers print differently. *)
Class DisplayLaws (CRegID : Type) `{DisplayOps CRegID} : Prop := {
  regid_ToString_inj : forall a b : CRegID,
    regid_ToString a = regid_ToString b -> a = b;
  uint256_GetHex_inj : forall x y,
    is_uint256 x -> is_uint256 y -> uint256_GetHex x = uint256_GetHex y -> x = y;
}.

Section ToJson.
Context {CRegID : Type} `{!DisplayOps CRegID}.

(** [Object ToJson()]: six [push_back]s. *)
Definition ToJson (c : CUserCDP CRegID) : Object :=
  [ ("regid", Value_str (regid_ToString (ownerRegId c)));
    ("cdp_id", Value_str (uint256_GetHex (cdpTxId c)));
    ("height", Value_int (blockHeight c));
    ("total_bcoin", Value_uint64 (totalStakedBcoins c));
    ("total_scoin", Value_uint64 (totalOwedScoins c));
    ("ratio", Value_real (collateralRatioBase c)) ].

End ToJson.

End Json.

(** ** More of the reference instance *)

Module Samples.
Import Reference.

(** Owners print as their raw string, identifiers as the raw string of
    their value. *)
#[export] Instance display_N : Json.DisplayOps N :=
  {| Json.regid_ToString := raw_of_N;
     Json.uint256_GetHex := fun x => raw_of_N (Z.to_N x) |}.

(** A position with debt and no stake, one at par with larger totals than
    [cdp_par], and one with twice the stake of its debt held by the owner
    of [cdp_par]. *)
Definition cdp_broke : CUserCDP N := mk_cdp 5 5 0 0 7.
Definition cdp_par_big : CUserCDP N := mk_cdp 6 6 0 1000 1000.
Definition cdp_double : CUserCDP N := mk_cdp 3 8 0 2 1.

(** [cdp_par] as it sits in memory after a change of its totals that has
    not touched the ratio. *)
Definition cdp_stale : CUserCDP N :=
  {| collateralRatioBase := Double.of_uint64 1;
     ownerRegId := 3%N;
     cdpTxId := 3;
     blockHeight := 0;
     totalStakedBcoins := 2;
     totalOwedScoins := 1 |}.

(** [cdp_broke] with a negative zero as ratio, which the mutable field can
    hold in memory though no quotient of unsigned totals yields it. *)
Definition cdp_broke_neg : CUserCDP N :=
  {| collateralRatioBase := S754_zero true;
     ownerRegId := 5%N;
     cdpTxId := 5;
     blockHeight := 0;
     totalStakedBcoins := 0;
     totalOwedScoins := 7 |}.

End Samples.

(* ================================================================== *)
(** * Part II: properties                                             *)
(* ================================================================== *)

(** ** Rounding to binary64 *)

Section Rounding.
Import Double.

Lemma digits2_pos_size p : digits2_pos p = Pos.size p.
Proof. induction p; simpl; congruence. Qed.

Lemma Zdigits2_pos_bounds p :
  2 ^ (Zdigits2 (Zpos p) - 1) <= Zpos p < 2 ^ Zdigits2 (Zpos p).
Proof.
  simpl. rewrite digits2_pos_size.
  pose proof (Pos.size_gt p) as Hgt. pose proof (Pos.size_le p) as Hle.
  split.
  - assert (2 ^ Zpos (Pos.size p) <= 2 * Zpos p) as H.
    { change (2 * Zpos p) with (Zpos p~0). rewrite <- Pos2Z.inj_pow. lia. }
    replace (Zpos (Pos.size p)) with (Z.succ (Zpos (Pos.size p) - 1)) in H by lia.
    rewrite Z.pow_succ_r in H by lia. lia.
  - rewrite <- Pos2Z.inj_pow. lia.
Qed.

Lemma Zdigits2_nonneg m : 0 <= m -> 0 <= Zdigits2 m.
Proof. destruct m; simpl; lia. Qed.

Lemma Zdigits2_pos m : 0 < m -> 1 <= Zdigits2 m.
Proof. destruct m; simpl; lia. Qed.

Lemma Zdigits2_le_of_lt m k : 0 <= m < 2 ^ k -> 0 <= k -> Zdigits2 m <= k.
Proof.
  intros [H0 Hlt] Hk. destruct m as [|p|p]; [simpl; lia| |lia].
  destruct (Zdigits2_pos_bounds p) as [Hlo _].
  destruct (Z_le_gt_dec (Zdigits2 (Zpos p)) k) as [|Hgt]; [assumption|exfalso].
  assert (2 ^ k <= 2 ^ (Zdigits2 (Zpos p) - 1)) by (apply Z.pow_le_mono_r; lia).
  lia.
Qed.

Lemma shr_1_m mrs : 0 <= shr_m mrs -> shr_m (shr_1 mrs) = shr_m mrs / 2.
Proof.
  destruct mrs as [m r s]. simpl. intros Hm.
  rewrite <- Z.div2_div. destruct m as [|[p|p|]|p]; try reflexivity; lia.
Qed.

Lemma iter_pos_shr_1_m n mrs :
  0 <= shr_m mrs ->
  shr_m (SpecFloat.iter_pos shr_1 n mrs) = shr_m mrs / 2 ^ Zpos n.
Proof.
  revert mrs. induction n as [n IH|n IH|]; intros mrs Hm; simpl SpecFloat.iter_pos.
  - assert (0 <= shr_m (shr_1 mrs)) as H1
      by (rewrite shr_1_m by assumption; apply Z.div_pos; lia).
    assert (0 <= shr_m (SpecFloat.iter_pos shr_1 n (shr_1 mrs))) as H2
      by (rewrite IH by assumption; apply Z.div_pos; lia).
    rewrite IH, IH, shr_1_m by assumption.
    rewrite !Z.div_div by lia. f_equal.
    replace (Zpos n~1) with (1 + Zpos n + Zpos n) by lia.
    rewrite !Z.pow_add_r by lia. change (2 ^ 1) with 2. ring.
  - assert (0 <= shr_m (SpecFloat.iter_pos shr_1 n mrs)) as H2
      by (rewrite IH by assumption; apply Z.div_pos; lia).
    rewrite IH, IH by assumption.
    rewrite !Z.div_div by lia. f_equal.
    replace (Zpos n~0) with (Zpos n + Zpos n) by lia.
    rewrite Z.pow_add_r by lia. reflexivity.
  - rewrite shr_1_m by assumption. reflexivity.
Qed.

Lemma shr_spec mrs e n mrs' e' :
  0 <= shr_m mrs ->
  shr mrs e n = (mrs', e') ->
  shr_m mrs' = shr_m mrs / 2 ^ Z.max n 0 /\ e' = e + Z.max n 0.
Proof.
  intros Hm. unfold shr. destruct n as [|p|p]; intros [= <- <-].
  - simpl. rewrite Z.div_1_r. lia.
  - rewrite iter_pos_shr_1_m by assumption.
    replace (Z.max (Zpos p) 0) with (Zpos p) by lia. lia.
  - replace (Z.max (Zneg p) 0) with 0 by lia. simpl. rewrite Z.div_1_r. lia.
Qed.

Lemma shr_record_of_loc_m m l : shr_m (shr_record_of_loc m l) = m.
Proof. destruct l as [|[]]; reflexivity. Qed.

Lemma round_nearest_even_bounds m l :
  m <= round_nearest_even m l <= m + 1.
Proof. destruct l as [|[]]; simpl; try lia. destruct (Z.even m); lia. Qed.


Lemma div_pow2_bounds m j : 0 <= m -> 0 <= j -> 0 <= m / 2 ^ j <= m.
Proof.
  intros Hm Hj. assert (0 < 2 ^ j) by (apply Z.pow_pos_nonneg; lia).
  split; [apply Z.div_pos; lia|]. apply Z.div_le_upper_bound; nia.
Qed.

Lemma div_pow2_pos m j : 0 < m -> 0 <= j <= Zdigits2 m - 1 -> 0 < m / 2 ^ j.
Proof.
  intros Hm Hj. destruct m as [|p|p]; try lia.
  destruct (Zdigits2_pos_bounds p) as [Hlo _].
  assert (0 < 2 ^ j) by (apply Z.pow_pos_nonneg; lia).
  assert (2 ^ j <= 2 ^ (Zdigits2 (Zpos p) - 1)) by (apply Z.pow_le_mono_r; lia).
  apply Z.div_str_pos. lia.
Qed.

Lemma binary_round_aux_bounded s m e l k :
  0 <= m < 2 ^ k -> 0 <= k ->
  emin prec emax <= e -> e + 2 * k + 1 <= emax - prec ->
  (binary_round_aux prec emax s m e l = S754_zero s /\ m = 0) \/
  (exists m' e', binary_round_aux prec emax s m e l = S754_finite s m' e' /\
                 e <= e' <= e + 2 * k + 1 /\ Zpos m' < 2 ^ (k + 1)).
Proof.
  intros [Hm0 Hmk] Hk Hemin Hemax.
  unfold binary_round_aux, shr_fexp.
  destruct (shr (shr_record_of_loc m l) e _) as [mrs1 e1] eqn:E1.
  apply shr_spec in E1; [|rewrite shr_record_of_loc_m; assumption].
  rewrite shr_record_of_loc_m in E1. destruct E1 as [Hm1 He1].
  set (m2 := round_nearest_even (shr_m mrs1) (loc_of_shr_record mrs1)).
  destruct (shr (shr_record_of_loc m2 loc_Exact) e1 _) as [mrs3 e3] eqn:E3.
  pose proof (round_nearest_even_bounds (shr_m mrs1) (loc_of_shr_record mrs1)) as Hr.
  fold m2 in Hr.
  pose proof (Zdigits2_le_of_lt m k (conj Hm0 Hmk) Hk) as Hd.
  pose proof (Zdigits2_nonneg m Hm0) as Hd0.
  set (n1 := Z.max (fexp prec emax (Zdigits2 m + e) - e) 0) in *.
  assert (0 <= n1 <= Z.max (Zdigits2 m - prec) 0) as Hn1
    by (unfold n1, fexp, emin, prec, emax in *; lia).
  pose proof (div_pow2_bounds m n1 Hm0 (proj1 Hn1)) as Hb1. rewrite <- Hm1 in Hb1.
  assert (0 <= m2 < 2 ^ (k + 1)) as Hm2.
  { rewrite Z.pow_add_r, Z.pow_1_r by lia. lia. }
  apply shr_spec in E3; [|simpl; lia]. simpl shr_m in E3. destruct E3 as [Hm3 He3].
  pose proof (Zdigits2_le_of_lt m2 (k + 1) Hm2 ltac:(lia)) as Hd2.
  pose proof (Zdigits2_nonneg m2 (proj1 Hm2)) as Hd20.
  set (n2 := Z.max (fexp prec emax (Zdigits2 m2 + e1) - e1) 0) in *.
  assert (0 <= n2 <= Z.max (Zdigits2 m2 - prec) 0) as Hn2
    by (unfold n2, fexp, emin, prec, emax in *; lia).
  pose proof (div_pow2_bounds m2 n2 (proj1 Hm2) (proj1 Hn2)) as Hb3. rewrite <- Hm3 in Hb3.
  assert (0 < m -> 0 < shr_m mrs3) as Hpos.
  { intros Hp. pose proof (Zdigits2_pos m Hp) as Hd1.
    assert (0 < shr_m mrs1) as Hp1
      by (rewrite Hm1; apply div_pow2_pos; [assumption|unfold prec in *; lia]).
    assert (0 < m2) as Hp2 by lia.
    pose proof (Zdigits2_pos m2 Hp2) as Hd21.
    rewrite Hm3. apply div_pow2_pos; [assumption|unfold prec in *; lia]. }
  destruct (shr_m mrs3) as [|p|p] eqn:Em3.
  - left. split; [reflexivity|]. destruct (Z.eq_dec m 0); [assumption|]. lia.
  - right. assert ((e3 <=? emax - prec) = true) as ->
      by (apply Z.leb_le; unfold prec, emax in *; lia).
    exists p, e3. split; [reflexivity|]. unfold prec, emax in *. lia.
  - lia.
Qed.


Lemma pos_iter_xO p d : Zpos (Pos.iter xO p d) = Zpos p * 2 ^ Zpos d.
Proof.
  change (Pos.iter xO p d) with (shift_pos d p).
  rewrite shift_pos_correct. change (Zpower_pos 2 d) with (2 ^ Zpos d). ring.
Qed.

Lemma of_uint64_0 : of_uint64 0 = S754_zero false.
Proof. reflexivity. Qed.

Lemma of_uint64_small_finite n : 0 < n < 2 ^ 64 -> small_finite (of_uint64 n).
Proof.
  intros [Hn0 Hn]. destruct n as [|p|p]; try lia.
  unfold of_uint64, binary_normalize, binary_round.
  destruct (Zdigits2_pos_bounds p) as [Hlo Hhi].
  pose proof (Zdigits2_le_of_lt (Zpos p) 64 ltac:(lia) ltac:(lia)) as Hd.
  pose proof (Zdigits2_pos (Zpos p) ltac:(lia)) as Hd1.
  change (Zpos (digits2_pos p)) with (Zdigits2 (Zpos p)).
  assert (exists mz ez, shl_align p 0 (fexp prec emax (Zdigits2 (Zpos p) + 0)) = (mz, ez)
                        /\ -52 <= ez <= 0 /\ Zpos mz < 2 ^ 64) as (mz & ez & -> & Hez & Hmz).
  { unfold shl_align.
    destruct (fexp prec emax (Zdigits2 (Zpos p) + 0) - 0) as [|d|d] eqn:Ed.
    - exists p, 0. repeat split; lia.
    - exists p, 0. repeat split; lia.
    - eexists _, _. split; [reflexivity|].
      unfold fexp, emin, prec, emax in *. split; [lia|].
      rewrite pos_iter_xO.
      assert (Zpos d = 53 - Zdigits2 (Zpos p)) as -> by lia.
      assert (Zpos p * 2 ^ (53 - Zdigits2 (Zpos p)) < 2 ^ Zdigits2 (Zpos p) * 2 ^ (53 - Zdigits2 (Zpos p))).
      { apply Z.mul_lt_mono_pos_r; [apply Z.pow_pos_nonneg; lia|lia]. }
      rewrite <- Z.pow_add_r in H by lia.
      replace (Zdigits2 (Zpos p) + (53 - Zdigits2 (Zpos p))) with 53 in H by lia.
      assert (2 ^ 53 < 2 ^ 64) by reflexivity. lia. }
  destruct (binary_round_aux_bounded false (Zpos mz) ez loc_Exact 64)
    as [[_ ?]|(m' & e' & -> & He' & Hm')]; try (unfold emin, prec, emax; lia).
  exists m', e'. split; [reflexivity|]. split; [lia|exact Hm'].
Qed.

Lemma div_small_finite m1 e1 m2 e2 :
  -52 <= e1 <= 129 -> Zpos m1 < 2 ^ 65 ->
  -52 <= e2 <= 129 -> Zpos m2 < 2 ^ 65 ->
  div (S754_finite false m1 e1) (S754_finite false m2 e2) = S754_zero false \/
  exists m e, div (S754_finite false m1 e1) (S754_finite false m2 e2) = S754_finite false m e.
Proof.
  intros He1 Hm1 He2 Hm2. unfold div, SFdiv, SFdiv_core_binary.
  set (d1 := Zdigits2 (Zpos m1)). set (d2 := Zdigits2 (Zpos m2)).
  pose proof (Zdigits2_le_of_lt (Zpos m1) 65 ltac:(lia) ltac:(lia)) as Hd1. fold d1 in Hd1.
  pose proof (Zdigits2_le_of_lt (Zpos m2) 65 ltac:(lia) ltac:(lia)) as Hd2. fold d2 in Hd2.
  pose proof (Zdigits2_pos (Zpos m1) ltac:(lia)) as Hd1'. fold d1 in Hd1'.
  pose proof (Zdigits2_pos (Zpos m2) ltac:(lia)) as Hd2'. fold d2 in Hd2'.
  set (e' := Z.min (fexp prec emax (d1 + e1 - (d2 + e2))) (e1 - e2)).
  set (sh := e1 - e2 - e').
  assert (-1074 <= e' <= 181) as He' by (unfold e', fexp, emin, prec, emax; lia).
  assert (0 <= sh <= 118) as Hsh by (unfold sh, e', fexp, emin, prec, emax; lia).
  set (m' := match sh with Zpos _ => Z.shiftl (Zpos m1) sh | 0 => Zpos m1 | Zneg _ => 0 end).
  assert (0 <= m' < 2 ^ 183) as Hm'.
  { assert (m' = Zpos m1 * 2 ^ sh) as ->.
    { unfold m'. destruct sh eqn:Esh.
      - change (2 ^ 0) with 1. lia.
      - rewrite Z.shiftl_mul_pow2 by lia. reflexivity.
      - lia. }
    assert (0 < 2 ^ sh) by (apply Z.pow_pos_nonneg; lia).
    assert (2 ^ sh <= 2 ^ 118) by (apply Z.pow_le_mono_r; lia).
    split; [lia|].
    assert (Zpos m1 * 2 ^ sh < 2 ^ 65 * 2 ^ 118) by nia.
    change (2 ^ 65 * 2 ^ 118) with (2 ^ 183) in H1. exact H1. }
  destruct (Z.div_eucl m' (Zpos m2)) as [q r] eqn:Eq.
  assert (0 <= q < 2 ^ 183) as Hq.
  { assert (q = m' / Zpos m2) as -> by (unfold Z.div; rewrite Eq; reflexivity).
    split; [apply Z.div_pos; lia|].
    apply Z.le_lt_trans with m'; [|lia]. apply Z.div_le_upper_bound; nia. }
  destruct (binary_round_aux_bounded (xorb false false) q e' (new_location (Zpos m2) r) 183)
    as [[-> _]|(m & e & -> & _)]; try (unfold emin, prec, emax; lia).
  - left. reflexivity.
  - right. exists m, e. reflexivity.
Qed.

Lemma ratio_of_zero_zero : ratio_of 0 0 = S754_nan.
Proof. reflexivity. Qed.

Lemma ratio_of_zero_debt staked :
  0 < staked < 2 ^ 64 -> ratio_of staked 0 = infinity.
Proof.
  intros H. unfold ratio_of. destruct (of_uint64_small_finite staked H) as (m & e & -> & _).
  reflexivity.
Qed.

Lemma ratio_of_debt staked owed :
  0 <= staked < 2 ^ 64 -> 0 < owed < 2 ^ 64 ->
  ratio_of staked owed = S754_zero false \/
  exists m e, ratio_of staked owed = S754_finite false m e.
Proof.
  intros Hs Ho. unfold ratio_of.
  destruct (of_uint64_small_finite owed Ho) as (m2 & e2 & -> & He2 & Hm2).
  destruct (Z.eq_dec staked 0) as [->|Hne].
  - left. reflexivity.
  - destruct (of_uint64_small_finite staked ltac:(lia)) as (m1 & e1 & -> & He1 & Hm1).
    apply div_small_finite; assumption.
Qed.

End Rounding.

(** ** The IEEE comparisons *)

Section Comparisons.
Import Double.

Lemma compare_cont_Eq m1 m2 : Pos.compare_cont Eq m1 m2 = Pos.compare m1 m2.
Proof. reflexivity. Qed.

(** Case analysis on every comparison of exponents and mantissas in the
    goal. *)
Ltac split_compare :=
  repeat match goal with
  | |- context [Pos.compare_cont Eq ?a ?b] => rewrite (compare_cont_Eq a b)
  end;
  repeat match goal with
  | |- context [Z.compare ?a ?b] => destruct (Z.compare_spec a b); simpl
  | |- context [Pos.compare ?a ?b] => destruct (Pos.compare_spec a b); simpl
  end.

Ltac by_cases :=
  unfold ltb, eqb, SFltb, SFeqb, SFcompare;
  repeat match goal with x : spec_float |- _ => destruct x end;
  repeat match goal with s : bool |- _ => destruct s end;
  simpl; try (intros; discriminate); try reflexivity;
  split_compare; intros; subst;
  try reflexivity; try discriminate; try lia; auto.

Lemma ltb_irrefl (x : double) : ltb x x = false.
Proof. by_cases. Qed.

Lemma ltb_not_eqb (x y : double) : ltb x y = true -> eqb x y = false.
Proof. by_cases. Qed.

Lemma eqb_not_ltb (x y : double) : eqb x y = true -> ltb x y = false.
Proof. by_cases. Qed.

Lemma ltb_asym (x y : double) : ltb x y = true -> ltb y x = false.
Proof. by_cases. Qed.

Lemma eqb_sym (x y : double) : eqb x y = eqb y x.
Proof. by_cases. Qed.

Lemma ltb_trans (x y z : double) :
  ltb x y = true -> ltb y z = true -> ltb x z = true.
Proof. by_cases. Qed.

Lemma eqb_trans (x y z : double) :
  eqb x y = true -> eqb y z = true -> eqb x z = true.
Proof. by_cases. Qed.

Lemma eqb_ltb_trans (x y z : double) :
  eqb x y = true -> ltb y z = true -> ltb x z = true.
Proof. by_cases. Qed.

Lemma ltb_eqb_trans (x y z : double) :
  ltb x y = true -> eqb y z = true -> ltb x z = true.
Proof. by_cases. Qed.

Lemma ltb_total (x y : double) :
  is_nan x = false -> is_nan y = false -> eqb x y = false ->
  ltb x y = true \/ ltb y x = true.
Proof. by_cases; auto. Qed.

(** On values without NaN and negative zero, [==] is equality. *)
Lemma eqb_eq (x y : double) :
  ordered x = true -> ordered y = true -> (eqb x y = true <-> x = y).
Proof.
  unfold ordered, eqb, SFeqb, SFcompare.
  destruct x as [sx|sx| |sx m1 e1], y as [sy|sy| |sy m2 e2];
    try destruct sx; try destruct sy; simpl; intros Hx Hy; try discriminate;
    (split; intros He; try discriminate; try reflexivity);
    try (injection He as -> ->; rewrite compare_cont_Eq, Z.compare_refl,
           Pos.compare_refl; reflexivity);
    revert He; rewrite compare_cont_Eq;
    destruct (Z.compare_spec e1 e2); destruct (Pos.compare_spec m1 m2);
    simpl; intros; subst; try discriminate; try reflexivity; lia.
Qed.

(** Values that compare equal compare alike with every value. *)
Lemma eqb_compat_l (x y z : double) : eqb x y = true -> eqb x z = eqb y z.
Proof. by_cases. Qed.

Lemma eqb_compat_r (x y z : double) : eqb x y = true -> eqb z x = eqb z y.
Proof. by_cases. Qed.

Lemma ltb_compat_l (x y z : double) : eqb x y = true -> ltb x z = ltb y z.
Proof. by_cases. Qed.

Lemma ltb_compat_r (x y z : double) : eqb x y = true -> ltb z x = ltb z y.
Proof. by_cases. Qed.

Lemma eqb_not_nan (x y : double) :
  eqb x y = true -> is_nan x = false /\ is_nan y = false.
Proof. by_cases. Qed.

Lemma ordered_not_nan (x : double) : ordered x = true -> is_nan x = false.
Proof. destruct x as [[]|[]| |]; simpl; congruence. Qed.

End Comparisons.

(** ** [operator<] *)

Section OrderFacts.
Context {CRegID : Type} `{!RegIdOps CRegID} `{!RegIdLaws CRegID}.

Lemma regid_eq_false (a b : CRegID) : regid_eq a b = false <-> a <> b.
Proof.
  pose proof (regid_eq_spec a b) as H. destruct (regid_eq a b).
  - split; [discriminate|]. intros Hne. exfalso. apply Hne, H. reflexivity.
  - split; [|reflexivity]. intros _ Heq. apply H in Heq. discriminate.
Qed.

Lemma regid_lt_neq (a b : CRegID) : regid_lt a b = true -> a <> b.
Proof. intros Hlt ->. rewrite regid_lt_irrefl in Hlt. discriminate. Qed.

(** [operator<] is the lexicographic comparison of the composite key. *)
Lemma CUserCDP_lt_lex (a b : CUserCDP CRegID) :
  CUserCDP_lt a b = true <->
  Double.ltb (collateralRatioBase a) (collateralRatioBase b) = true \/
  (Double.eqb (collateralRatioBase a) (collateralRatioBase b) = true /\
   (regid_lt (ownerRegId a) (ownerRegId b) = true \/
    (ownerRegId a = ownerRegId b /\ cdpTxId a < cdpTxId b))).
Proof.
  unfold CUserCDP_lt.
  destruct (Double.eqb _ _) eqn:Eeq.
  - pose proof (eqb_not_ltb _ _ Eeq) as Hn. rewrite Hn.
    destruct (regid_eq _ _) eqn:Ereg.
    + apply regid_eq_spec in Ereg. rewrite Z.ltb_lt. split.
      * intros Hlt. right. split; [reflexivity|]. right. split; assumption.
      * intros [?|[_ [Hlt|[_ Hlt]]]]; [discriminate| |assumption].
        apply regid_lt_neq in Hlt. contradiction.
    + apply regid_eq_false in Ereg. split.
      * intros Hlt. right. split; [reflexivity|]. left. assumption.
      * intros [?|[_ [Hlt|[Heq _]]]]; [discriminate|assumption|contradiction].
  - split; [intros Hlt; left; assumption|].
    intros [Hlt|[? _]]; [assumption|discriminate].
Qed.

Lemma CUserCDP_lt_irrefl (a : CUserCDP CRegID) : CUserCDP_lt a a = false.
Proof.
  destruct (CUserCDP_lt a a) eqn:E; [|reflexivity].
  apply CUserCDP_lt_lex in E. destruct E as [E|[_ [E|[_ E]]]].
  - rewrite ltb_irrefl in E. discriminate.
  - rewrite regid_lt_irrefl in E. discriminate.
  - lia.
Qed.

Lemma CUserCDP_lt_trans (a b c : CUserCDP CRegID) :
  CUserCDP_lt a b = true -> CUserCDP_lt b c = true -> CUserCDP_lt a c = true.
Proof.
  rewrite !CUserCDP_lt_lex.
  intros [Hab|[Eab Hab]] [Hbc|[Ebc Hbc]].
  - left. eapply ltb_trans; eassumption.
  - left. eapply ltb_eqb_trans; eassumption.
  - left. eapply eqb_ltb_trans; eassumption.
  - right. split; [eapply eqb_trans; eassumption|].
    destruct Hab as [Hab|[Hab1 Hab2]], Hbc as [Hbc|[Hbc1 Hbc2]].
    + left. eapply regid_lt_trans; eassumption.
    + left. rewrite <- Hbc1. assumption.
    + left. rewrite Hab1. assumption.
    + right. split; [congruence|lia].
Qed.

Lemma CUserCDP_lt_asym (a b : CUserCDP CRegID) :
  CUserCDP_lt a b = true -> CUserCDP_lt b a = false.
Proof.
  intros Hab. destruct (CUserCDP_lt b a) eqn:Hba; [|reflexivity].
  pose proof (CUserCDP_lt_trans _ _ _ Hab Hba) as H.
  rewrite CUserCDP_lt_irrefl in H. discriminate.
Qed.

(** Records that differ in ratio (under [==]), owner or id, and whose
    ratios are not NaN, are ordered one way. *)
Lemma CUserCDP_lt_connected (a b : CUserCDP CRegID) :
  Double.is_nan (collateralRatioBase a) = false ->
  Double.is_nan (collateralRatioBase b) = false ->
  Double.eqb (collateralRatioBase a) (collateralRatioBase b) = false \/
    ownerRegId a <> ownerRegId b \/ cdpTxId a <> cdpTxId b ->
  CUserCDP_lt a b = true \/ CUserCDP_lt b a = true.
Proof.
  intros Ha Hb Hne. rewrite !CUserCDP_lt_lex.
  destruct (Double.eqb (collateralRatioBase a) (collateralRatioBase b)) eqn:Eeq.
  - assert (Double.eqb (collateralRatioBase b) (collateralRatioBase a) = true)
      as Eeq' by (rewrite eqb_sym; assumption).
    destruct (decide (ownerRegId a = ownerRegId b)) as [Ho|Ho].
    + destruct Hne as [?|[?|Ht]]; [discriminate|contradiction|].
      destruct (Z.lt_total (cdpTxId a) (cdpTxId b)) as [Hlt|[Heq|Hgt]].
      * left. right. split; [reflexivity|]. right. split; assumption.
      * contradiction.
      * right. right. split; [assumption|]. right. split; [congruence|lia].
    + destruct (regid_lt_total _ _ Ho); [left|right]; right;
        (split; [first [reflexivity|assumption]|]); left; assumption.
  - destruct (ltb_total _ _ Ha Hb Eeq); [left|right]; left; assumption.
Qed.

(** On ratios without NaN and negative zero, two records share a slot of
    an [operator<]-ordered container exactly when their composite keys are
    equal. *)
Lemma same_slot_iff_order_key (a b : CUserCDP CRegID) :
  Double.ordered (collateralRatioBase a) = true ->
  Double.ordered (collateralRatioBase b) = true ->
  same_slot a b = true <-> order_key a = order_key b.
Proof.
  intros Ha Hb. unfold same_slot, order_key. split.
  - intros Hs. apply andb_true_iff in Hs. destruct Hs as [H1 H2].
    apply negb_true_iff in H1, H2.
    destruct (Double.eqb (collateralRatioBase a) (collateralRatioBase b)) eqn:Eeq.
    + destruct (decide (ownerRegId a = ownerRegId b)) as [Ho|Ho].
      * destruct (decide (cdpTxId a = cdpTxId b)) as [Ht|Ht].
        -- apply eqb_eq in Eeq; [|assumption..]. congruence.
        -- destruct (CUserCDP_lt_connected a b); try congruence;
             auto using ordered_not_nan.
      * destruct (CUserCDP_lt_connected a b); try congruence;
          auto using ordered_not_nan.
    + destruct (CUserCDP_lt_connected a b); try congruence;
        auto using ordered_not_nan.
  - intros [= Hr Ho Ht].
    assert (CUserCDP_lt a b = false) as ->.
    { destruct (CUserCDP_lt a b) eqn:E; [|reflexivity].
      apply CUserCDP_lt_lex in E. destruct E as [E|[_ [E|[_ E]]]].
      - rewrite Hr, ltb_irrefl in E. discriminate.
      - rewrite Ho, regid_lt_irrefl in E. discriminate.
      - lia. }
    assert (CUserCDP_lt b a = false) as ->.
    { destruct (CUserCDP_lt b a) eqn:E; [|reflexivity].
      apply CUserCDP_lt_lex in E. destruct E as [E|[_ [E|[_ E]]]].
      - rewrite Hr, ltb_irrefl in E. discriminate.
      - rewrite Ho, regid_lt_irrefl in E. discriminate.
      - lia. }
    reflexivity.
Qed.

(** With equal ratios (under [==]), owners and ids neither record sorts
    before the other. *)
Lemma CUserCDP_lt_equal_key (a b : CUserCDP CRegID) :
  Double.eqb (collateralRatioBase a) (collateralRatioBase b) = true ->
  ownerRegId a = ownerRegId b -> cdpTxId a = cdpTxId b ->
  CUserCDP_lt a b = false.
Proof.
  intros Hr Ho Ht. destruct (CUserCDP_lt a b) eqn:E; [|reflexivity].
  apply CUserCDP_lt_lex in E. destruct E as [E|[_ [E|[_ E]]]].
  - rewrite (eqb_not_ltb _ _ Hr) in E. discriminate.
  - rewrite Ho, regid_lt_irrefl in E. discriminate.
  - lia.
Qed.

(** On ratios that are not NaN, two records share a slot exactly when
    their ratios compare equal and their owners and ids are equal. *)
Lemma same_slot_iff_equal_key (a b : CUserCDP CRegID) :
  Double.is_nan (collateralRatioBase a) = false ->
  Double.is_nan (collateralRatioBase b) = false ->
  same_slot a b = true <->
  Double.eqb (collateralRatioBase a) (collateralRatioBase b) = true /\
  ownerRegId a = ownerRegId b /\ cdpTxId a = cdpTxId b.
Proof.
  intros Ha Hb. unfold same_slot. split.
  - intros Hs. apply andb_true_iff in Hs. destruct Hs as [H1 H2].
    apply negb_true_iff in H1, H2.
    destruct (Double.eqb (collateralRatioBase a) (collateralRatioBase b)) eqn:Eeq.
    + destruct (decide (ownerRegId a = ownerRegId b)) as [Ho|Ho].
      * destruct (decide (cdpTxId a = cdpTxId b)) as [Ht|Ht]; [auto|].
        destruct (CUserCDP_lt_connected a b); try congruence; auto.
      * destruct (CUserCDP_lt_connected a b); try congruence; auto.
    + destruct (CUserCDP_lt_connected a b); try congruence; auto.
  - intros (Hr & Ho & Ht).
    rewrite (CUserCDP_lt_equal_key a b), (CUserCDP_lt_equal_key b a); auto.
    rewrite eqb_sym. assumption.
Qed.

(** Records with equal ratios (under [==]), owners and ids compare alike
    with every record. *)
Lemma equal_key_compares_alike (a b x : CUserCDP CRegID) :
  Double.eqb (collateralRatioBase a) (collateralRatioBase b) = true ->
  ownerRegId a = ownerRegId b -> cdpTxId a = cdpTxId b ->
  CUserCDP_lt a x = CUserCDP_lt b x /\ CUserCDP_lt x a = CUserCDP_lt x b.
Proof.
  intros Hr Ho Ht. unfold CUserCDP_lt. rewrite Ho, Ht.
  rewrite (eqb_compat_l _ _ _ Hr), (ltb_compat_l _ _ _ Hr).
  rewrite (eqb_compat_r _ _ (collateralRatioBase x) Hr).
  rewrite (ltb_compat_r _ _ (collateralRatioBase x) Hr).
  split; reflexivity.
Qed.

End OrderFacts.

(** ** The reference instance meets the laws *)

Module ReferenceFacts.
Import Reference.

#[export] Instance regid_N_laws : RegIdLaws N.
Proof.
  split; simpl.
  - intros a b. apply N.eqb_eq.
  - intros a. apply N.ltb_irrefl.
  - intros a b c. rewrite !N.ltb_lt. lia.
  - intros a b Hne. rewrite !N.ltb_lt. lia.
Qed.

Lemma unser_ser_unary (n : N) (rest : list Byte.byte) :
  unser_unary (ser_unary n ++ rest) = Some (n, rest).
Proof.
  unfold ser_unary. induction n as [|n IH] using N.peano_ind.
  - reflexivity.
  - rewrite N2Nat.inj_succ. simpl. simpl in IH. rewrite IH. reflexivity.
Qed.

Lemma unser_ser_signed (z : Z) (rest : list Byte.byte) :
  unser_signed (ser_signed z ++ rest) = Some (z, rest).
Proof.
  unfold ser_signed, unser_signed. destruct (z <? 0) eqn:E; simpl;
    rewrite unser_ser_unary; do 2 f_equal; lia.
Qed.

#[export] Instance wire_N_laws : WireLaws N.
Proof.
  split; simpl; intros; first [apply unser_ser_unary | apply unser_ser_signed].
Qed.

End ReferenceFacts.

(** ** Claims about [operator<] and the constructors *)

Section OrderClaims.
Context {CRegID : Type} `{!RegIdOps CRegID}.

(** C7, as amended.  [operator<] is a strict order, irreflexive and
    transitive, that compares the composite key (ratio, owner, cdp id)
    lexicographically in ascending order: by ratio first, ties on the ratio
    broken by owner, remaining ties by cdp id.  For two records whose
    ratios are not NaN and that differ in ratio (under [==]), in owner or
    in cdp id, exactly one of [r1 < r2] and [r2 < r1] holds. *)
Theorem CUserCDP_lt_strict_order `{!RegIdLaws CRegID} (a b c : CUserCDP CRegID) :
  CUserCDP_lt a a = false /\
  (CUserCDP_lt a b = true -> CUserCDP_lt b c = true -> CUserCDP_lt a c = true) /\
  (CUserCDP_lt a b = true <->
     Double.ltb (collateralRatioBase a) (collateralRatioBase b) = true \/
     (Double.eqb (collateralRatioBase a) (collateralRatioBase b) = true /\
      (regid_lt (ownerRegId a) (ownerRegId b) = true \/
       (ownerRegId a = ownerRegId b /\ cdpTxId a < cdpTxId b)))) /\
  (Double.is_nan (collateralRatioBase a) = false ->
   Double.is_nan (collateralRatioBase b) = false ->
   Double.eqb (collateralRatioBase a) (collateralRatioBase b) = false \/
     ownerRegId a <> ownerRegId b \/ cdpTxId a <> cdpTxId b ->
   CUserCDP_lt a b = negb (CUserCDP_lt b a)).
Proof.
  split; [apply CUserCDP_lt_irrefl|].
  split; [apply CUserCDP_lt_trans|].
  split; [apply CUserCDP_lt_lex|].
  intros Ha Hb Hne.
  destruct (CUserCDP_lt_connected a b Ha Hb Hne) as [H|H];
    rewrite H, (CUserCDP_lt_asym _ _ H); reflexivity.
Qed.

(** C8, as amended.  Of two decoded records, one with no debt but some
    stake and one with some debt, the debt-free one has the infinite ratio
    and sorts after the indebted one. *)
Theorem zero_debt_sorts_last (r1 r2 : CUserCDP CRegID) :
  decoded r1 -> decoded r2 ->
  totalOwedScoins r1 = 0 -> 0 < totalStakedBcoins r1 ->
  0 < totalOwedScoins r2 ->
  collateralRatioBase r1 = Double.infinity /\
  CUserCDP_lt r2 r1 = true /\ CUserCDP_lt r1 r2 = false.
Proof.
  intros [(_ & _ & Hs1 & _) Hr1] [(_ & _ & Hs2 & Ho2) Hr2] Hz Hpos Hdebt.
  unfold is_uint64, uint64_max in *.
  assert (collateralRatioBase r1 = Double.infinity) as Hinf.
  { rewrite Hr1, Hz. apply ratio_of_zero_debt. lia. }
  split; [assumption|].
  unfold CUserCDP_lt. rewrite Hinf, Hr2.
  destruct (ratio_of_debt (totalStakedBcoins r2) (totalOwedScoins r2))
    as [->|(m & e & ->)]; try lia; split; reflexivity.
Qed.

(** C10.  Neither constructor gives [collateralRatioBase] a value: the
    field keeps whatever its storage held, so the outcome of [operator<]
    on a freshly constructed record is not determined by the constructor's
    arguments (against one and the same record it is true for one content
    of the storage and false for another).  [SetEmpty] leaves
    [collateralRatioBase] and [ownerRegId] as they were. *)
Theorem constructors_leave_ratio_indeterminate
    (uninit : double) (regId : CRegID) (cdpTxIdIn : uint256)
    (c : CUserCDP CRegID) :
  collateralRatioBase (CUserCDP_default (CRegID := CRegID) uninit) = uninit /\
  collateralRatioBase (CUserCDP_new uninit regId cdpTxIdIn) = uninit /\
  CUserCDP_lt (CUserCDP_new (S754_zero false) regId cdpTxIdIn)
              (CUserCDP_new (Double.of_uint64 1) regId cdpTxIdIn) = true /\
  CUserCDP_lt (CUserCDP_new Double.infinity regId cdpTxIdIn)
              (CUserCDP_new (Double.of_uint64 1) regId cdpTxIdIn) = false /\
  CUserCDP_lt (CUserCDP_default (S754_zero false))
              (CUserCDP_new (Double.of_uint64 1) regId cdpTxIdIn) = true /\
  CUserCDP_lt (CUserCDP_default Double.infinity)
              (CUserCDP_new (Double.of_uint64 1) regId cdpTxIdIn) = false /\
  collateralRatioBase (SetEmpty c) = collateralRatioBase c /\
  ownerRegId (SetEmpty c) = ownerRegId c.
Proof. repeat split; reflexivity. Qed.

End OrderClaims.

Section OrderChecks.
Import Reference ReferenceFacts.

Lemma decoded_mk_cdp owner txid height staked owed :
  is_uint256 txid -> is_int32 height -> is_uint64 staked -> is_uint64 owed ->
  decoded (mk_cdp owner txid height staked owed).
Proof. intros. split; [unfold wf_cdp; simpl; auto|reflexivity]. Qed.

Lemma CUserCDP_lt_strict_order_witness :
  CUserCDP_lt cdp_par cdp_debt_free = negb (CUserCDP_lt cdp_debt_free cdp_par).
Proof.
  apply (CUserCDP_lt_strict_order cdp_par cdp_debt_free cdp_par);
    [reflexivity | reflexivity | left; reflexivity].
Defined.

(** C7, as stated, fails: two decoded records of different owners that
    staked nothing and owe nothing both carry a NaN ratio, and neither
    sorts before the other. *)
Lemma CUserCDP_lt_not_total :
  decoded cdp_idle_1 /\ decoded cdp_idle_2 /\
  cdp_idle_1 <> cdp_idle_2 /\ ownerRegId cdp_idle_1 <> ownerRegId cdp_idle_2 /\
  CUserCDP_lt cdp_idle_1 cdp_idle_2 = false /\
  CUserCDP_lt cdp_idle_2 cdp_idle_1 = false.
Proof.
  split; [apply decoded_mk_cdp; vm_compute; intuition discriminate|].
  split; [apply decoded_mk_cdp; vm_compute; intuition discriminate|].
  repeat split; try (vm_compute; discriminate); reflexivity.
Qed.

Lemma zero_debt_sorts_last_witness :
  collateralRatioBase cdp_debt_free = Double.infinity /\
  CUserCDP_lt cdp_par cdp_debt_free = true /\
  CUserCDP_lt cdp_debt_free cdp_par = false.
Proof.
  apply (zero_debt_sorts_last cdp_debt_free cdp_par);
    [apply decoded_mk_cdp; vm_compute; intuition discriminate
    |apply decoded_mk_cdp; vm_compute; intuition discriminate
    |reflexivity | reflexivity | reflexivity].
Defined.

(** C8, as stated, fails: a decoded record with neither stake nor debt has
    a NaN ratio and does not sort after an indebted record. *)
Lemma zero_debt_idle_not_last :
  decoded cdp_idle_1 /\ decoded cdp_par /\
  totalOwedScoins cdp_idle_1 = 0 /\ 0 < totalOwedScoins cdp_par /\
  CUserCDP_lt cdp_par cdp_idle_1 = false.
Proof.
  split; [apply decoded_mk_cdp; vm_compute; intuition discriminate|].
  split; [apply decoded_mk_cdp; vm_compute; intuition discriminate|].
  repeat split; reflexivity.
Qed.

End OrderChecks.

(** ** Serialization *)

Section WireFacts.
Context {CRegID : Type} `{!RegIdOps CRegID} `{!WireOps CRegID} `{!WireLaws CRegID}.

(** Reading back what [Serialize] wrote yields the persisted fields and
    the recomputed ratio, and leaves the rest of the stream. *)
Lemma Unserialize_Serialize (c : CUserCDP CRegID) (rest : list Byte.byte) :
  wf_cdp c ->
  Unserialize (Serialize c ++ rest) =
  Some ({| collateralRatioBase :=
             Double.ratio_of (totalStakedBcoins c) (totalOwedScoins c);
           ownerRegId := ownerRegId c;
           cdpTxId := cdpTxId c;
           blockHeight := blockHeight c;
           totalStakedBcoins := totalStakedBcoins c;
           totalOwedScoins := totalOwedScoins c |}, rest).
Proof.
  intros (Ht & Hh & Hs & Ho). unfold Unserialize, Serialize.
  rewrite <- !app_assoc.
  rewrite regid_roundtrip, uint256_roundtrip, varint_int32_roundtrip,
    varint_uint64_roundtrip, varint_uint64_roundtrip by assumption.
  reflexivity.
Qed.

(** C6, as amended.  Serializing a record and deserializing the bytes
    yields a record with the same owner, cdp id, height, staked and owed
    totals, whose ratio is the IEEE quotient of its staked and owed totals:
    positive infinity when nothing is owed and something is staked, NaN
    when nothing is owed and nothing is staked, an ordinary number
    otherwise.  Decoding returns a record in every case. *)
Theorem serialize_roundtrip (c : CUserCDP CRegID) (rest : list Byte.byte) :
  wf_cdp c ->
  exists c',
    Unserialize (Serialize c ++ rest) = Some (c', rest) /\
    same_persisted c' c /\
    collateralRatioBase c' =
      Double.div (Double.of_uint64 (totalStakedBcoins c'))
                 (Double.of_uint64 (totalOwedScoins c')) /\
    (totalOwedScoins c' = 0 -> 0 < totalStakedBcoins c' ->
     collateralRatioBase c' = Double.infinity) /\
    (totalOwedScoins c' = 0 -> totalStakedBcoins c' = 0 ->
     collateralRatioBase c' = S754_nan) /\
    (0 < totalOwedScoins c' -> Double.ordered (collateralRatioBase c') = true).
Proof.
  intros Hwf. eexists. split; [apply Unserialize_Serialize; assumption|].
  destruct Hwf as (Ht & Hh & Hs & Ho). unfold is_uint64, uint64_max in *.
  simpl. split; [repeat split|]. split; [reflexivity|].
  split; [|split].
  - intros -> Hpos. apply ratio_of_zero_debt. lia.
  - intros -> ->. reflexivity.
  - intros Hpos.
    destruct (ratio_of_debt (totalStakedBcoins c) (totalOwedScoins c))
      as [->|(m & e & ->)]; try lia; reflexivity.
Qed.

End WireFacts.

Section WireChecks.
Import Reference ReferenceFacts.

Lemma wf_cdp_par : wf_cdp cdp_par.
Proof. vm_compute. intuition discriminate. Qed.

Lemma serialize_roundtrip_witness :
  exists c',
    Unserialize (Serialize cdp_par ++ []) = Some (c', []) /\
    same_persisted c' cdp_par /\
    collateralRatioBase c' =
      Double.div (Double.of_uint64 (totalStakedBcoins c'))
                 (Double.of_uint64 (totalOwedScoins c')) /\
    (totalOwedScoins c' = 0 -> 0 < totalStakedBcoins c' ->
     collateralRatioBase c' = Double.infinity) /\
    (totalOwedScoins c' = 0 -> totalStakedBcoins c' = 0 ->
     collateralRatioBase c' = S754_nan) /\
    (0 < totalOwedScoins c' -> Double.ordered (collateralRatioBase c') = true).
Proof. apply (serialize_roundtrip cdp_par []). vm_compute. intuition discriminate. Defined.

(** C6, as stated, fails: a record that owes nothing and staked nothing
    decodes with a NaN ratio, not with the infinite one. *)
Lemma zero_debt_ratio_not_infinite :
  wf_cdp cdp_idle_1 /\
  Unserialize (Serialize cdp_idle_1) = Some (cdp_idle_1, []) /\
  totalOwedScoins cdp_idle_1 = 0 /\
  collateralRatioBase cdp_idle_1 = S754_nan /\
  collateralRatioBase cdp_idle_1 <> Double.infinity.
Proof.
  split; [vm_compute; intuition discriminate|].
  repeat split; try reflexivity. vm_compute. discriminate.
Qed.

End WireChecks.

(** ** The [operator<]-ordered map of the index *)

Section MapFacts.
Context {CRegID : Type} `{!RegIdOps CRegID} `{!RegIdLaws CRegID}.
Import MemCache.

(** What holds of the keys of a map and of an assigned key holds of the
    keys afterwards. *)
Lemma map_assign_keys (Q : CUserCDP CRegID -> Prop) (k : CUserCDP CRegID)
    (f : Z) (m : list (CUserCDP CRegID * Z)) :
  Q k -> Forall (fun n => Q (fst n)) m ->
  Forall (fun n => Q (fst n)) (map_assign k f m).
Proof.
  intros Hk. induction 1 as [|n rest Hn Hrest IH]; simpl.
  - constructor; [assumption|constructor].
  - destruct (CUserCDP_lt (fst n) k).
    + constructor; assumption.
    + destruct (CUserCDP_lt k (fst n)).
      * constructor; [assumption|]. constructor; assumption.
      * constructor; assumption.
Qed.

(** An assignment keeps the nodes in order, NaN or not. *)
Lemma map_assign_sorted (k : CUserCDP CRegID) (f : Z)
    (m : list (CUserCDP CRegID * Z)) :
  map_sorted m -> map_sorted (map_assign k f m).
Proof.
  unfold map_sorted. induction 1 as [|n rest Hsorted IH Hall]; simpl.
  - constructor; constructor.
  - destruct (CUserCDP_lt (fst n) k) eqn:Hnk.
    + constructor; [assumption|].
      apply (map_assign_keys (fun x => CUserCDP_lt (fst n) x = true));
        assumption.
    + destruct (CUserCDP_lt k (fst n)) eqn:Hkn.
      * constructor; [constructor; assumption|].
        constructor; [assumption|].
        eapply Forall_impl; [exact Hall|]. simpl. intros x Hx.
        eapply CUserCDP_lt_trans; eassumption.
      * constructor; assumption.
Qed.

(** After an assignment the key finds a node of its slot that carries the
    flag. *)
Lemma map_find_assign (k : CUserCDP CRegID) (f : Z)
    (m : list (CUserCDP CRegID * Z)) :
  exists k', map_find k (map_assign k f m) = Some (k', f) /\
             same_slot k' k = true.
Proof.
  induction m as [|n rest IH]; simpl.
  - rewrite CUserCDP_lt_irrefl. exists k. split; [reflexivity|].
    unfold same_slot. rewrite CUserCDP_lt_irrefl. reflexivity.
  - destruct (CUserCDP_lt (fst n) k) eqn:Hnk; simpl.
    + rewrite Hnk. exact IH.
    + destruct (CUserCDP_lt k (fst n)) eqn:Hkn; simpl.
      * rewrite CUserCDP_lt_irrefl. exists k. split; [reflexivity|].
        unfold same_slot. rewrite CUserCDP_lt_irrefl. reflexivity.
      * rewrite Hnk, Hkn. exists (fst n). split; [reflexivity|].
        unfold same_slot. rewrite Hnk, Hkn. reflexivity.
Qed.

(** On keys without NaN an assignment leaves every other slot as it
    was. *)
Lemma map_find_assign_other (j k : CUserCDP CRegID) (f : Z)
    (m : list (CUserCDP CRegID * Z)) :
  Double.is_nan (collateralRatioBase j) = false ->
  Double.is_nan (collateralRatioBase k) = false ->
  Forall (fun n => Double.is_nan (collateralRatioBase (fst n)) = false) m ->
  same_slot j k = false ->
  map_find j (map_assign k f m) = map_find j m.
Proof.
  intros Hj Hk Hm Hjk.
  assert (CUserCDP_lt k j = true \/ CUserCDP_lt j k = true) as Hne.
  { unfold same_slot in Hjk.
    destruct (CUserCDP_lt j k), (CUserCDP_lt k j); simpl in Hjk;
      try discriminate; auto. }
  induction Hm as [|n rest Hn Hrest IH]; simpl.
  - destruct (CUserCDP_lt k j); [reflexivity|].
    destruct Hne as [?|Hlt]; [discriminate|]. rewrite Hlt. reflexivity.
  - destruct (CUserCDP_lt (fst n) k) eqn:Hnk; simpl.
    + destruct (CUserCDP_lt (fst n) j); [exact IH|reflexivity].
    + destruct (CUserCDP_lt k (fst n)) eqn:Hkn; simpl.
      * destruct (CUserCDP_lt k j) eqn:Hkj; [reflexivity|].
        destruct Hne as [?|Hlt]; [discriminate|]. rewrite Hlt.
        pose proof (CUserCDP_lt_trans _ _ _ Hlt Hkn) as Hjn.
        rewrite (CUserCDP_lt_asym _ _ Hjn), Hjn. reflexivity.
      * destruct (CUserCDP_lt (fst n) j) eqn:Hnj; [reflexivity|].
        destruct (CUserCDP_lt j (fst n)) eqn:Hjn; [reflexivity|].
        exfalso.
        assert (same_slot j (fst n) = true) as H1
          by (unfold same_slot; rewrite Hnj, Hjn; reflexivity).
        assert (same_slot (fst n) k = true) as H2
          by (unfold same_slot; rewrite Hnk, Hkn; reflexivity).
        apply same_slot_iff_equal_key in H1; [|assumption..].
        apply same_slot_iff_equal_key in H2; [|assumption..].
        destruct H1 as (E1 & O1 & T1), H2 as (E2 & O2 & T2).
        assert (same_slot j k = true) as H3.
        { apply same_slot_iff_equal_key; [assumption..|].
          split; [eapply eqb_trans; eassumption|]. split; congruence. }
        congruence.
Qed.

(** A key whose ratio is a NaN sorts neither before nor after any key: to
    the map it belongs to the first node, whose flag the assignment
    changes, and the map does not grow. *)
Lemma map_assign_nan (k : CUserCDP CRegID) (f : Z)
    (n : CUserCDP CRegID * Z) (rest : list (CUserCDP CRegID * Z)) :
  Double.is_nan (collateralRatioBase k) = true ->
  map_assign k f (n :: rest) = (fst n, f) :: rest.
Proof.
  intros Hk. simpl. unfold CUserCDP_lt.
  destruct (collateralRatioBase k); try discriminate.
  unfold Double.eqb, Double.ltb, SFeqb, SFltb, SFcompare.
  destruct (collateralRatioBase (fst n)); reflexivity.
Qed.

End MapFacts.

(** ** The cache and its operations *)

Section CacheFacts.
Context {CRegID : Type} `{!RegIdOps CRegID}.
Import DBCache.

(** Undoing the entry of a write restores the map it was made on. *)
Lemma undo_entry_insert (m : gmap CdpKey (ValueCache.DbEntry CRegID))
    (key : CdpKey) (e : ValueCache.DbEntry CRegID) :
  ValueCache.undo_entry (key, m !! key) (<[key := e]> m) = m.
Proof.
  unfold ValueCache.undo_entry. simpl. destruct (m !! key) as [e0|] eqn:Hk.
  - rewrite insert_insert_eq. apply insert_id. assumption.
  - apply delete_insert_id. assumption.
Qed.

Lemma UndoCdp_SaveCdp_log (cdp : CUserCDP CRegID) (db : CCdpDBCache CRegID) :
  UndoCdp (snd (fst (SaveCdp_log cdp [] db))) (snd (SaveCdp_log cdp [] db)) =
  (true, {| cdpCache := cdpCache db;
            cdpMemCache := cdpMemCache (snd (SaveCdp_log cdp [] db)) |}).
Proof.
  unfold UndoCdp, SaveCdp_log, ValueCache.SetData, ValueCache.UndoData. simpl.
  rewrite undo_entry_insert. destruct db as [[m pb pa] L]. reflexivity.
Qed.

End CacheFacts.

(** ** Claims about the caches *)

Section CacheClaims.
Context {CRegID : Type} `{!RegIdOps CRegID}.
Import DBCache.

(** C2.  For a record that is not the empty sentinel, if adding
    [bcoinsToStake] to its staked total or [mintedScoins] to its owed total
    would exceed the largest 64-bit value, [StakeBcoinsToCdp] returns
    failure and hands back the record, the undo log and the cache, identity
    store and index alike, as they were. *)
Theorem stake_overflow_changes_nothing (blockHeight bcoinsToStake mintedScoins : Z)
    (cdp : CUserCDP CRegID) (dbOpLogMap : ValueCache.CDBOpLogMap CRegID)
    (db : CCdpDBCache CRegID) :
  IsEmpty cdp = false ->
  uint64_max < totalStakedBcoins cdp + bcoinsToStake \/
    uint64_max < totalOwedScoins cdp + mintedScoins ->
  StakeBcoinsToCdp blockHeight bcoinsToStake mintedScoins cdp dbOpLogMap db =
  (false, cdp, dbOpLogMap, db).
Proof.
  intros Hne Hover. unfold StakeBcoinsToCdp. rewrite Hne.
  assert (stake_overflows bcoinsToStake mintedScoins cdp = true) as ->.
  { unfold stake_overflows. apply orb_true_iff.
    destruct Hover; [left|right]; apply Z.ltb_lt; assumption. }
  reflexivity.
Qed.

(** C5.  Straight after a [StakeBcoinsToCdp] call that succeeds, started
    with an empty undo log, [UndoCdp] on the log it produced succeeds and
    leaves the identity store exactly as it was before the call: under
    every key the prior entry is back, and no entry at all where there was
    none.  The index is not touched by the undo. *)
Theorem undo_restores_identity_store (blockHeight bcoinsToStake mintedScoins : Z)
    (cdp : CUserCDP CRegID) (db : CCdpDBCache CRegID) :
  let res := StakeBcoinsToCdp blockHeight bcoinsToStake mintedScoins cdp [] db in
  fst (fst (fst res)) = true ->
  UndoCdp (snd (fst res)) (snd res) =
    (true, {| cdpCache := cdpCache db; cdpMemCache := cdpMemCache (snd res) |}) /\
  forall key,
    ValueCache.mapData (cdpCache (snd (UndoCdp (snd (fst res)) (snd res)))) !! key
    = ValueCache.mapData (cdpCache db) !! key.
Proof.
  intros res Hok.
  assert (UndoCdp (snd (fst res)) (snd res) =
          (true, {| cdpCache := cdpCache db; cdpMemCache := cdpMemCache (snd res) |}))
    as Hundo.
  { subst res. unfold StakeBcoinsToCdp in *.
    destruct (IsEmpty cdp).
    - apply (UndoCdp_SaveCdp_log _ db).
    - destruct (stake_overflows bcoinsToStake mintedScoins cdp); [discriminate|].
      apply (UndoCdp_SaveCdp_log _
               {| cdpCache := cdpCache db;
                  cdpMemCache := MemCache.EraseCdp cdp (cdpMemCache db) |}). }
  split; [assumption|]. intros key. rewrite Hundo. reflexivity.
Qed.

(** C9.  [CCdpDBCache(&b)] copy-constructs both members: the new cache
    starts with the entries and totals of [b]'s index and of [b]'s
    identity store, and its [pBase] is [b]'s own [pBase], so that it heads
    the very chain [b] heads; unless [b] is its own parent that pointer is
    not the address of [b].  [SetBaseView] is what chains it under [b],
    and even then the copied entries stay. *)
Theorem from_base_copies_members (h : heap CRegID) (pBaseIn : ptr)
    (b : CCdpDBCache CRegID) :
  h !! pBaseIn = Some b ->
  exists c,
    CCdpDBCache_from_base h pBaseIn = Some c /\
    MemCache.cdps (cdpMemCache c) = MemCache.cdps (cdpMemCache b) /\
    MemCache.totalStakedBcoins (cdpMemCache c) =
      MemCache.totalStakedBcoins (cdpMemCache b) /\
    MemCache.totalOwedScoins (cdpMemCache c) =
      MemCache.totalOwedScoins (cdpMemCache b) /\
    ValueCache.mapData (cdpCache c) = ValueCache.mapData (cdpCache b) /\
    MemCache.pBase (cdpMemCache c) = MemCache.pBase (cdpMemCache b) /\
    (MemCache.pBase (cdpMemCache b) <> Some pBaseIn ->
     MemCache.pBase (cdpMemCache c) <> Some pBaseIn) /\
    (forall fuel, mem_chain_of fuel h (cdpMemCache c) =
                  mem_chain_of fuel h (cdpMemCache b)) /\
    MemCache.pBase (cdpMemCache (SetBaseView pBaseIn c)) = Some pBaseIn /\
    MemCache.cdps (cdpMemCache (SetBaseView pBaseIn c)) =
      MemCache.cdps (cdpMemCache b).
Proof.
  intros Hb. unfold CCdpDBCache_from_base. rewrite Hb.
  eexists. split; [reflexivity|]. simpl. repeat split; auto.
Qed.

End CacheClaims.

Section CacheChecks.
Import Reference ReferenceFacts DBCache.

Lemma stake_overflow_changes_nothing_witness :
  StakeBcoinsToCdp 7 uint64_max 0 cdp_par [] root_with_par =
  (false, cdp_par, [], root_with_par).
Proof.
  apply (stake_overflow_changes_nothing 7 uint64_max 0 cdp_par [] root_with_par).
  - reflexivity.
  - left. vm_compute. reflexivity.
Defined.

Lemma undo_restores_identity_store_witness :
  UndoCdp (snd (fst (StakeBcoinsToCdp 7 1 0 cdp_par [] root_with_par)))
          (snd (StakeBcoinsToCdp 7 1 0 cdp_par [] root_with_par)) =
    (true, {| cdpCache := cdpCache root_with_par;
              cdpMemCache :=
                cdpMemCache (snd (StakeBcoinsToCdp 7 1 0 cdp_par [] root_with_par)) |}) /\
  forall key,
    ValueCache.mapData
      (cdpCache (snd (UndoCdp
         (snd (fst (StakeBcoinsToCdp 7 1 0 cdp_par [] root_with_par)))
         (snd (StakeBcoinsToCdp 7 1 0 cdp_par [] root_with_par))))) !! key
    = ValueCache.mapData (cdpCache root_with_par) !! key.
Proof.
  apply (undo_restores_identity_store 7 1 0 cdp_par root_with_par).
  reflexivity.
Defined.

Lemma from_base_copies_members_witness :
  exists c,
    CCdpDBCache_from_base {[root_ptr := root_with_par]} root_ptr = Some c /\
    MemCache.cdps (cdpMemCache c) = MemCache.cdps (cdpMemCache root_with_par) /\
    MemCache.totalStakedBcoins (cdpMemCache c) =
      MemCache.totalStakedBcoins (cdpMemCache root_with_par) /\
    MemCache.totalOwedScoins (cdpMemCache c) =
      MemCache.totalOwedScoins (cdpMemCache root_with_par) /\
    ValueCache.mapData (cdpCache c) = ValueCache.mapData (cdpCache root_with_par) /\
    MemCache.pBase (cdpMemCache c) = MemCache.pBase (cdpMemCache root_with_par) /\
    (MemCache.pBase (cdpMemCache root_with_par) <> Some root_ptr ->
     MemCache.pBase (cdpMemCache c) <> Some root_ptr) /\
    (forall fuel, mem_chain_of fuel {[root_ptr := root_with_par]} (cdpMemCache c) =
                  mem_chain_of fuel {[root_ptr := root_with_par]}
                               (cdpMemCache root_with_par)) /\
    MemCache.pBase (cdpMemCache (SetBaseView root_ptr c)) = Some root_ptr /\
    MemCache.cdps (cdpMemCache (SetBaseView root_ptr c)) =
      MemCache.cdps (cdpMemCache root_with_par).
Proof.
  apply (from_base_copies_members {[root_ptr := root_with_par]} root_ptr root_with_par).
  apply lookup_singleton_eq.
Defined.

End CacheChecks.

(** ** The two positions of the scenario of the specification *)

Section Scenario.
Import Reference DBCache.

Example ratio_of_a : collateralRatioBase cdp_a = Double.of_uint64 2.
Proof. reflexivity. Qed.

Example ratio_of_b : collateralRatioBase cdp_b = Double.of_uint64 1.
Proof. reflexivity. Qed.

Example a_sorts_after_b :
  CUserCDP_lt cdp_b cdp_a = true /\ CUserCDP_lt cdp_a cdp_b = false.
Proof. split; reflexivity. Qed.

End Scenario.

(* ================================================================== *)
(** * Part III: further properties of the code                        *)
(* ================================================================== *)

(** ** The quotient of the deserializer *)

Section RatioFacts.
Import Double.

(** A quotient of two conversions of positive 64-bit integers does not
    underflow to zero. *)
Lemma div_small_finite_nonzero m1 e1 m2 e2 :
  -52 <= e1 <= 129 -> Zpos m1 < 2 ^ 65 ->
  -52 <= e2 <= 129 -> Zpos m2 < 2 ^ 65 ->
  exists m e, div (S754_finite false m1 e1) (S754_finite false m2 e2)
              = S754_finite false m e.
Proof.
  intros He1 Hm1 He2 Hm2. unfold div, SFdiv, SFdiv_core_binary.
  set (d1 := Zdigits2 (Zpos m1)). set (d2 := Zdigits2 (Zpos m2)).
  pose proof (Zdigits2_le_of_lt (Zpos m1) 65 ltac:(lia) ltac:(lia)) as Hd1.
  fold d1 in Hd1.
  pose proof (Zdigits2_le_of_lt (Zpos m2) 65 ltac:(lia) ltac:(lia)) as Hd2.
  fold d2 in Hd2.
  pose proof (Zdigits2_pos (Zpos m1) ltac:(lia)) as Hd1'. fold d1 in Hd1'.
  pose proof (Zdigits2_pos (Zpos m2) ltac:(lia)) as Hd2'. fold d2 in Hd2'.
  destruct (Zdigits2_pos_bounds m1) as [Hlo1 _]. fold d1 in Hlo1.
  destruct (Zdigits2_pos_bounds m2) as [_ Hhi2]. fold d2 in Hhi2.
  set (e' := Z.min (fexp prec emax (d1 + e1 - (d2 + e2))) (e1 - e2)).
  set (sh := e1 - e2 - e').
  assert (-1074 <= e' <= 181) as He' by (unfold e', fexp, emin, prec, emax; lia).
  assert (0 <= sh <= 118) as Hsh by (unfold sh, e', fexp, emin, prec, emax; lia).
  assert (53 - d1 + d2 <= sh) as Hsh' by (unfold sh, e', fexp, emin, prec, emax; lia).
  set (m' := match sh with
             | Zpos _ => Z.shiftl (Zpos m1) sh
             | 0 => Zpos m1
             | Zneg _ => 0
             end).
  assert (m' = Zpos m1 * 2 ^ sh) as Em'.
  { unfold m'. destruct sh eqn:Esh.
    - change (2 ^ 0) with 1. lia.
    - rewrite Z.shiftl_mul_pow2 by lia. reflexivity.
    - lia. }
  assert (0 < 2 ^ sh) as Hpow by (apply Z.pow_pos_nonneg; lia).
  assert (Zpos m2 <= m' < 2 ^ 183) as Hm'.
  { rewrite Em'. split.
    - assert (2 ^ d2 <= 2 ^ (d1 - 1) * 2 ^ sh) as Hge.
      { rewrite <- Z.pow_add_r by lia. apply Z.pow_le_mono_r; lia. }
      assert (2 ^ (d1 - 1) * 2 ^ sh <= Zpos m1 * 2 ^ sh) by nia. lia.
    - assert (2 ^ sh <= 2 ^ 118) by (apply Z.pow_le_mono_r; lia).
      assert (Zpos m1 * 2 ^ sh < 2 ^ 65 * 2 ^ 118) as Hlt by nia.
      change (2 ^ 65 * 2 ^ 118) with (2 ^ 183) in Hlt. exact Hlt. }
  destruct (Z.div_eucl m' (Zpos m2)) as [q r] eqn:Eq.
  assert (0 < q < 2 ^ 183) as Hq.
  { assert (q = m' / Zpos m2) as -> by (unfold Z.div; rewrite Eq; reflexivity).
    split; [apply Z.div_str_pos; lia|].
    apply Z.le_lt_trans with m'; [|lia]. apply Z.div_le_upper_bound; nia. }
  destruct (binary_round_aux_bounded (xorb false false) q e'
              (new_location (Zpos m2) r) 183)
    as [[_ Hz]|(m & e & -> & _)]; try (unfold emin, prec, emax; lia).
  exists m, e. reflexivity.
Qed.

(** A finite number divided by itself is one, exactly. *)
Lemma div_self s m e :
  div (S754_finite s m e) (S754_finite s m e) = of_uint64 1.
Proof.
  unfold div, SFdiv, SFdiv_core_binary.
  replace (Zdigits2 (Zpos m) + e - (Zdigits2 (Zpos m) + e)) with 0 by lia.
  replace (e - e) with 0 by lia.
  change (Z.min (fexp prec emax 0) 0) with (-53).
  change (0 - -53) with 53. cbv iota.
  assert (Z.div_eucl (Z.shiftl (Zpos m) 53) (Zpos m) = (2 ^ 53, 0)) as ->.
  { rewrite Z.shiftl_mul_pow2 by lia.
    pose proof (Z.div_eucl_eq (Zpos m * 2 ^ 53) (Zpos m) ltac:(lia)) as Heq.
    pose proof (Z.mod_pos_bound (Zpos m * 2 ^ 53) (Zpos m) ltac:(lia)) as Hb.
    unfold Z.modulo, Z.div in *.
    destruct (Z.div_eucl (Zpos m * 2 ^ 53) (Zpos m)) as [q r]. simpl in *.
    assert (q = 2 ^ 53) by nia. subst q. f_equal. lia. }
  assert (new_location (Zpos m) 0 = loc_Exact) as ->.
  { unfold new_location. destruct (Z.even (Zpos m)); reflexivity. }
  destruct s; reflexivity.
Qed.

Lemma ratio_of_positive staked owed :
  0 < staked < 2 ^ 64 -> 0 < owed < 2 ^ 64 ->
  exists m e, ratio_of staked owed = S754_finite false m e.
Proof.
  intros Hs Ho. unfold ratio_of.
  destruct (of_uint64_small_finite staked Hs) as (m1 & e1 & -> & He1 & Hm1).
  destruct (of_uint64_small_finite owed Ho) as (m2 & e2 & -> & He2 & Hm2).
  apply div_small_finite_nonzero; assumption.
Qed.

Lemma ratio_of_zero_stake owed :
  0 < owed < 2 ^ 64 -> ratio_of 0 owed = S754_zero false.
Proof.
  intros Ho. unfold ratio_of.
  destruct (of_uint64_small_finite owed Ho) as (m2 & e2 & -> & _). reflexivity.
Qed.

Lemma ratio_of_par n : 0 < n < 2 ^ 64 -> ratio_of n n = of_uint64 1.
Proof.
  intros Hn. unfold ratio_of.
  destruct (of_uint64_small_finite n Hn) as (m & e & -> & _). apply div_self.
Qed.

End RatioFacts.

(** ** [operator<] on the records the store hands out *)

Section OrderExtras.
Context {CRegID : Type} `{!RegIdOps CRegID}.

Lemma is_nan_true (x : double) : Double.is_nan x = true -> x = S754_nan.
Proof. destruct x; simpl; intros; congruence. Qed.

(** The shape of the ratio of a decoded record, by its totals. *)
Lemma decoded_ratio_cases (c : CUserCDP CRegID) :
  decoded c ->
  (totalStakedBcoins c = 0 /\ totalOwedScoins c = 0 /\
   collateralRatioBase c = S754_nan) \/
  (0 < totalStakedBcoins c /\ totalOwedScoins c = 0 /\
   collateralRatioBase c = Double.infinity) \/
  (totalStakedBcoins c = 0 /\ 0 < totalOwedScoins c /\
   collateralRatioBase c = S754_zero false) \/
  (0 < totalStakedBcoins c /\ 0 < totalOwedScoins c /\
   exists m e, collateralRatioBase c = S754_finite false m e).
Proof.
  intros [(_ & _ & Hs & Ho) ->]. unfold is_uint64, uint64_max in *.
  destruct (Z.eq_dec (totalStakedBcoins c) 0) as [Es|Es],
           (Z.eq_dec (totalOwedScoins c) 0) as [Eo|Eo].
  - left. rewrite Es, Eo. auto.
  - right. right. left. rewrite Es. repeat split; try lia.
    apply ratio_of_zero_stake. lia.
  - right. left. rewrite Eo. repeat split; try lia.
    apply ratio_of_zero_debt. lia.
  - right. right. right. repeat split; try lia.
    apply ratio_of_positive; lia.
Qed.

Lemma decoded_live_not_nan (c : CUserCDP CRegID) :
  decoded c -> 0 < totalStakedBcoins c \/ 0 < totalOwedScoins c ->
  Double.is_nan (collateralRatioBase c) = false.
Proof.
  intros Hc Hlive.
  destruct (decoded_ratio_cases c Hc)
    as [(? & ? & _)|[(_ & _ & ->)|[(_ & _ & ->)|(_ & _ & m & e & ->)]]];
    try reflexivity; lia.
Qed.

(** X1.  In a container ordered by [operator<], two records whose ratios
    are not NaN occupy the same slot exactly when their ratios compare
    equal under [==] (so that a positive and a negative zero count as the
    same ratio) and their owners and cdp ids are equal; two such records
    compare alike against every record, NaN or not, so height and totals
    are never looked at.  On ratios that are, besides, no negative zero
    this is equality of the composite key (ratio, owner, cdp id). *)
Theorem slot_shared_iff_same_key `{!RegIdLaws CRegID} (a b : CUserCDP CRegID) :
  Double.is_nan (collateralRatioBase a) = false ->
  Double.is_nan (collateralRatioBase b) = false ->
  (same_slot a b = true <->
   Double.eqb (collateralRatioBase a) (collateralRatioBase b) = true /\
   ownerRegId a = ownerRegId b /\ cdpTxId a = cdpTxId b) /\
  (same_slot a b = true ->
   forall x, CUserCDP_lt a x = CUserCDP_lt b x /\
             CUserCDP_lt x a = CUserCDP_lt x b) /\
  (Double.ordered (collateralRatioBase a) = true ->
   Double.ordered (collateralRatioBase b) = true ->
   (same_slot a b = true <-> order_key a = order_key b)).
Proof.
  intros Ha Hb. split; [apply same_slot_iff_equal_key; assumption|]. split.
  - intros Hs x. apply same_slot_iff_equal_key in Hs; [|assumption..].
    destruct Hs as (Hr & Ho & Ht). apply equal_key_compares_alike; assumption.
  - intros Oa Ob. apply same_slot_iff_order_key; assumption.
Qed.

(** X2.  A record whose ratio is a NaN sorts neither before nor after any
    record, so it shares a slot with every record; sharing a slot is then
    not transitive, since two records of which one sorts before the other
    both share a slot with it. *)
Theorem nan_ratio_is_unordered (n a b : CUserCDP CRegID) :
  Double.is_nan (collateralRatioBase n) = true ->
  CUserCDP_lt n a = false /\ CUserCDP_lt a n = false /\
  same_slot n a = true /\ same_slot a n = true /\
  (CUserCDP_lt a b = true ->
   same_slot a n = true /\ same_slot n b = true /\ same_slot a b = false).
Proof.
  intros Hn. apply is_nan_true in Hn.
  assert (forall x, CUserCDP_lt n x = false /\ CUserCDP_lt x n = false) as H.
  { intros x. unfold CUserCDP_lt. rewrite Hn. split; [reflexivity|].
    destruct (collateralRatioBase x); reflexivity. }
  destruct (H a) as [H1 H2]. destruct (H b) as [H3 H4].
  unfold same_slot. rewrite H1, H2, H3, H4.
  split; [reflexivity|]. split; [reflexivity|].
  split; [reflexivity|]. split; [reflexivity|].
  intros Hab. rewrite Hab. repeat split; reflexivity.
Qed.

(** X3.  The ratio of a decoded record is a NaN exactly when it has
    neither stake nor debt, positive infinity exactly when it has stake and
    no debt, positive zero exactly when it has debt and no stake, and a
    positive finite number exactly when it has both.  It is never negative
    and never a negative zero. *)
Theorem decoded_ratio_classification (c : CUserCDP CRegID) :
  decoded c ->
  (collateralRatioBase c = S754_nan <->
     totalStakedBcoins c = 0 /\ totalOwedScoins c = 0) /\
  (collateralRatioBase c = Double.infinity <->
     0 < totalStakedBcoins c /\ totalOwedScoins c = 0) /\
  (collateralRatioBase c = S754_zero false <->
     totalStakedBcoins c = 0 /\ 0 < totalOwedScoins c) /\
  ((exists m e, collateralRatioBase c = S754_finite false m e) <->
     0 < totalStakedBcoins c /\ 0 < totalOwedScoins c).
Proof.
  intros Hc.
  destruct (decoded_ratio_cases c Hc)
    as [(Hs & Ho & Hr)|[(Hs & Ho & Hr)|[(Hs & Ho & Hr)|(Hs & Ho & m & e & Hr)]]];
    rewrite Hr; unfold Double.infinity;
    repeat split; intros; try discriminate; try lia; auto;
    try (destruct H as (? & ? & ?); discriminate); eauto.
Qed.

(** X4.  A decoded record whose stake equals its debt, both positive, has
    ratio exactly one, whatever the amount; among such records
    [operator<] is the order of the owners, and of the cdp ids for one
    owner. *)
Theorem par_records_order_by_owner `{!RegIdLaws CRegID} (a b : CUserCDP CRegID) :
  decoded a -> decoded b ->
  0 < totalStakedBcoins a -> totalStakedBcoins a = totalOwedScoins a ->
  0 < totalStakedBcoins b -> totalStakedBcoins b = totalOwedScoins b ->
  collateralRatioBase a = Double.of_uint64 1 /\
  collateralRatioBase b = Double.of_uint64 1 /\
  (CUserCDP_lt a b = true <->
   regid_lt (ownerRegId a) (ownerRegId b) = true \/
   (ownerRegId a = ownerRegId b /\ cdpTxId a < cdpTxId b)).
Proof.
  intros [(_ & _ & Hsa & _) Hra] [(_ & _ & Hsb & _) Hrb] Hpa Hea Hpb Heb.
  unfold is_uint64, uint64_max in *.
  assert (collateralRatioBase a = Double.of_uint64 1) as Ha
    by (rewrite Hra, <- Hea; apply ratio_of_par; lia).
  assert (collateralRatioBase b = Double.of_uint64 1) as Hb
    by (rewrite Hrb, <- Heb; apply ratio_of_par; lia).
  split; [assumption|]. split; [assumption|].
  rewrite CUserCDP_lt_lex, Ha, Hb. split.
  - intros [H|[_ H]]; [discriminate|assumption].
  - intros H. right. split; [reflexivity|assumption].
Qed.

(** X5.  A decoded record with debt and no stake sorts before every
    decoded record that has some stake, with or without debt. *)
Theorem zero_stake_sorts_first (a b : CUserCDP CRegID) :
  decoded a -> decoded b ->
  totalStakedBcoins a = 0 -> 0 < totalOwedScoins a ->
  0 < totalStakedBcoins b ->
  CUserCDP_lt a b = true /\ CUserCDP_lt b a = false.
Proof.
  intros Ha Hb Hsa Hoa Hsb.
  destruct (decoded_ratio_cases a Ha)
    as [(_ & ? & _)|[(? & _ & _)|[(_ & _ & Hra)|(? & _ & _)]]]; try lia.
  unfold CUserCDP_lt. rewrite Hra.
  destruct (decoded_ratio_cases b Hb)
    as [(? & _ & _)|[(_ & _ & ->)|[(? & _ & _)|(_ & _ & m & e & ->)]]];
    try lia; split; reflexivity.
Qed.

(** X6.  On decoded records that have stake or debt, [operator<] is total:
    of two such records with different owners or different cdp ids exactly
    one sorts before the other. *)
Theorem order_total_on_live_records `{!RegIdLaws CRegID} (a b : CUserCDP CRegID) :
  decoded a -> decoded b ->
  0 < totalStakedBcoins a \/ 0 < totalOwedScoins a ->
  0 < totalStakedBcoins b \/ 0 < totalOwedScoins b ->
  cdp_id a <> cdp_id b ->
  CUserCDP_lt a b = negb (CUserCDP_lt b a).
Proof.
  intros Ha Hb Hla Hlb Hid.
  assert (CUserCDP_lt a b = true \/ CUserCDP_lt b a = true) as [H|H].
  { apply CUserCDP_lt_connected; try (apply decoded_live_not_nan; assumption).
    right. destruct (decide (ownerRegId a = ownerRegId b)) as [Ho|Ho];
      [right|left; assumption].
    intros Ht. apply Hid. unfold cdp_id. congruence. }
  - rewrite H, (CUserCDP_lt_asym _ _ H). reflexivity.
  - rewrite H, (CUserCDP_lt_asym _ _ H). reflexivity.
Qed.

(** X7.  [SetEmpty] makes a record empty and is idempotent, and both
    constructors with a zero id build an empty record.  Since it leaves
    the ratio alone, the emptied record still carries the quotient of its
    totals, which are now zero, only if its ratio was a NaN already. *)
Theorem SetEmpty_empties_and_keeps_ratio (c : CUserCDP CRegID)
    (uninit : double) (regId : CRegID) (cdpTxIdIn : uint256) :
  IsEmpty (SetEmpty c) = true /\
  SetEmpty (SetEmpty c) = SetEmpty c /\
  SetEmpty c = CUserCDP_new (collateralRatioBase c) (ownerRegId c) uint256_zero /\
  (IsEmpty (CUserCDP_new uninit regId cdpTxIdIn) = true <-> cdpTxIdIn = 0) /\
  IsEmpty (CUserCDP_default (CRegID := CRegID) uninit) = true /\
  (decoded (SetEmpty c) <-> collateralRatioBase c = S754_nan).
Proof.
  repeat split; try reflexivity.
  - unfold IsEmpty. simpl. apply Z.eqb_eq.
  - unfold IsEmpty. simpl. apply Z.eqb_eq.
  - intros [_ H]. exact H.
  - vm_compute. intuition discriminate.
  - vm_compute. intuition discriminate.
  - vm_compute. intuition discriminate.
  - simpl. assumption.
Qed.

End OrderExtras.

(** ** The wire format, further *)

Section WireExtras.
Context {CRegID : Type} `{!RegIdOps CRegID} `{!WireOps CRegID}.

Context `{!WireLaws CRegID}.

Lemma Serialize_same_persisted (a b : CUserCDP CRegID) :
  same_persisted a b -> Serialize a = Serialize b.
Proof.
  intros (Ho & Ht & Hh & Hs & Hd). unfold Serialize.
  rewrite Ho, Ht, Hh, Hs, Hd. reflexivity.
Qed.

Lemma Serialize_prefix_free (a b : CUserCDP CRegID) (r1 r2 : list Byte.byte) :
  wf_cdp a -> wf_cdp b ->
  Serialize a ++ r1 = Serialize b ++ r2 -> same_persisted a b /\ r1 = r2.
Proof.
  intros Ha Hb Heq.
  pose proof (Unserialize_Serialize a r1 Ha) as H1.
  pose proof (Unserialize_Serialize b r2 Hb) as H2.
  rewrite Heq, H2 in H1. injection H1 as _ Ho Ht Hh Hs Hd Hr.
  unfold same_persisted. repeat split; symmetry; assumption.
Qed.

(** X9.  The bytes of a record depend on its five persisted fields and on
    nothing else, and they determine them: two records have the same bytes
    exactly when they agree on owner, cdp id, height and both totals.  The
    encoding is self-delimiting: if the bytes of two records, each followed
    by more bytes, make up the same stream, the records agree on those
    fields and so do the remainders. *)
Theorem serialize_determines_persisted (a b : CUserCDP CRegID)
    (r1 r2 : list Byte.byte) :
  wf_cdp a -> wf_cdp b ->
  (Serialize a = Serialize b <-> same_persisted a b) /\
  (Serialize a ++ r1 = Serialize b ++ r2 -> same_persisted a b /\ r1 = r2).
Proof.
  intros Ha Hb. split; [split|].
  - intros Heq. apply (Serialize_prefix_free a b [] []); try assumption.
    rewrite !app_nil_r. assumption.
  - apply Serialize_same_persisted.
  - apply Serialize_prefix_free; assumption.
Qed.

(** X10.  Writing a record and reading it back returns the very same
    record exactly when its ratio was the quotient of its totals: a ratio
    that is out of date in memory is replaced on the way. *)
Theorem roundtrip_identity_iff_fresh_ratio (c : CUserCDP CRegID)
    (rest : list Byte.byte) :
  wf_cdp c ->
  (Unserialize (Serialize c ++ rest) = Some (c, rest) <->
   collateralRatioBase c =
     Double.ratio_of (totalStakedBcoins c) (totalOwedScoins c)).
Proof.
  intros Hwf. rewrite Unserialize_Serialize by assumption. split.
  - intros [= H]. rewrite <- H at 1. reflexivity.
  - intros H. destruct c as [r o t h s d]. simpl in *. rewrite H. reflexivity.
Qed.

(** X11.  An emptied record survives the wire as an empty record of the
    same owner, and comes back with a NaN ratio whatever ratio it had. *)
Theorem emptied_record_roundtrip (c : CUserCDP CRegID) (rest : list Byte.byte) :
  exists c',
    Unserialize (Serialize (SetEmpty c) ++ rest) = Some (c', rest) /\
    IsEmpty c' = true /\
    ownerRegId c' = ownerRegId c /\
    collateralRatioBase c' = S754_nan /\
    c' = SetEmpty c' /\
    forall x, CUserCDP_lt c' x = false /\ CUserCDP_lt x c' = false.
Proof.
  eexists. split.
  - apply Unserialize_Serialize. vm_compute. intuition discriminate.
  - simpl. repeat split; try reflexivity.
    unfold CUserCDP_lt. simpl. destruct (collateralRatioBase x); reflexivity.
Qed.

End WireExtras.

(** ** [ToJson] *)

Section JsonExtras.
Context {CRegID : Type} `{!Json.DisplayOps CRegID} `{!Json.DisplayLaws CRegID}.

(** X12.  The JSON projection has six members and loses nothing: two
    records with cdp ids in range that project to the same object are the
    same record, ratio included. *)
Theorem ToJson_determines_record (a b : CUserCDP CRegID) :
  is_uint256 (cdpTxId a) -> is_uint256 (cdpTxId b) ->
  length (Json.ToJson a) = 6%nat /\
  (Json.ToJson a = Json.ToJson b -> a = b).
Proof.
  intros Ha Hb. split; [reflexivity|].
  unfold Json.ToJson. intros [= Ho Ht Hh Hs Hd Hr].
  apply Json.regid_ToString_inj in Ho.
  apply Json.uint256_GetHex_inj in Ht; [|assumption..].
  destruct a, b. simpl in *. congruence.
Qed.

End JsonExtras.

(** ** Copying a cache and chaining the copy *)

Section CopyExtras.
Context {CRegID : Type} `{!RegIdOps CRegID}.
Import DBCache.

(** X13.  A cache built by [CCdpDBCache(&b)] and then chained under [b]
    by [SetBaseView(&b)] heads a chain that starts with a layer holding
    the very entries and totals of [b]'s index, followed by [b]'s own
    chain: everything [b] holds is in the chain twice. *)
Theorem copied_then_chained_duplicates (h : gmap ptr (CCdpDBCache CRegID))
    (pBaseIn : ptr) (b c : CCdpDBCache CRegID) (fuel : nat) :
  h !! pBaseIn = Some b ->
  CCdpDBCache_from_base h pBaseIn = Some c ->
  mem_chain_of (S fuel) h (cdpMemCache (SetBaseView pBaseIn c)) =
    MemCache.SetBase (Some pBaseIn) (cdpMemCache b) ::
    mem_chain_of fuel h (cdpMemCache b) /\
  MemCache.cdps (MemCache.SetBase (Some pBaseIn) (cdpMemCache b)) =
    MemCache.cdps (cdpMemCache b) /\
  MemCache.totalStakedBcoins (MemCache.SetBase (Some pBaseIn) (cdpMemCache b)) =
    MemCache.totalStakedBcoins (cdpMemCache b) /\
  ValueCache.mapData (cdpCache (SetBaseView pBaseIn c)) =
    ValueCache.mapData (cdpCache b) /\
  ValueCache.pBase (cdpCache (SetBaseView pBaseIn c)) = Some pBaseIn.
Proof.
  intros Hb. unfold CCdpDBCache_from_base. rewrite Hb. intros [= <-].
  simpl. rewrite Hb. repeat split; reflexivity.
Qed.

End CopyExtras.

(** ** The further properties on the reference instance *)

Module SamplesFacts.
Import Reference Samples.

Lemma length_raw_of_N (n : N) : String.length (raw_of_N n) = N.to_nat n.
Proof.
  induction n as [|n IH] using N.peano_ind; [reflexivity|].
  unfold raw_of_N in *. rewrite N.iter_succ, N2Nat.inj_succ. simpl.
  f_equal. exact IH.
Qed.

Lemma raw_of_N_inj (a b : N) : raw_of_N a = raw_of_N b -> a = b.
Proof.
  intros H. apply (f_equal String.length) in H.
  rewrite !length_raw_of_N in H. lia.
Qed.

#[export] Instance display_N_laws : Json.DisplayLaws N.
Proof.
  split; simpl.
  - apply raw_of_N_inj.
  - unfold is_uint256. intros x y Hx Hy H. apply raw_of_N_inj in H. lia.
Qed.

End SamplesFacts.

Section ExtraChecks.
Import Reference ReferenceFacts Samples SamplesFacts DBCache.

Lemma slot_shared_iff_same_key_witness :
  (same_slot cdp_broke cdp_broke_neg = true <->
   Double.eqb (collateralRatioBase cdp_broke)
              (collateralRatioBase cdp_broke_neg) = true /\
   ownerRegId cdp_broke = ownerRegId cdp_broke_neg /\
   cdpTxId cdp_broke = cdpTxId cdp_broke_neg) /\
  (same_slot cdp_broke cdp_broke_neg = true ->
   forall x, CUserCDP_lt cdp_broke x = CUserCDP_lt cdp_broke_neg x /\
             CUserCDP_lt x cdp_broke = CUserCDP_lt x cdp_broke_neg) /\
  (Double.ordered (collateralRatioBase cdp_broke) = true ->
   Double.ordered (collateralRatioBase cdp_broke_neg) = true ->
   (same_slot cdp_broke cdp_broke_neg = true <->
    order_key cdp_broke = order_key cdp_broke_neg)).
Proof.
  apply (slot_shared_iff_same_key cdp_broke cdp_broke_neg); reflexivity.
Defined.

Lemma nan_ratio_is_unordered_witness :
  CUserCDP_lt cdp_idle_1 cdp_par = false /\
  CUserCDP_lt cdp_par cdp_idle_1 = false /\
  same_slot cdp_idle_1 cdp_par = true /\ same_slot cdp_par cdp_idle_1 = true /\
  (CUserCDP_lt cdp_par cdp_debt_free = true ->
   same_slot cdp_par cdp_idle_1 = true /\
   same_slot cdp_idle_1 cdp_debt_free = true /\
   same_slot cdp_par cdp_debt_free = false).
Proof.
  apply (nan_ratio_is_unordered cdp_idle_1 cdp_par cdp_debt_free). reflexivity.
Defined.

Lemma decoded_ratio_classification_witness :
  (collateralRatioBase cdp_par = S754_nan <->
     totalStakedBcoins cdp_par = 0 /\ totalOwedScoins cdp_par = 0) /\
  (collateralRatioBase cdp_par = Double.infinity <->
     0 < totalStakedBcoins cdp_par /\ totalOwedScoins cdp_par = 0) /\
  (collateralRatioBase cdp_par = S754_zero false <->
     totalStakedBcoins cdp_par = 0 /\ 0 < totalOwedScoins cdp_par) /\
  ((exists m e, collateralRatioBase cdp_par = S754_finite false m e) <->
     0 < totalStakedBcoins cdp_par /\ 0 < totalOwedScoins cdp_par).
Proof.
  apply (decoded_ratio_classification cdp_par).
  apply decoded_mk_cdp; vm_compute; intuition discriminate.
Defined.

Lemma par_records_order_by_owner_witness :
  collateralRatioBase cdp_par = Double.of_uint64 1 /\
  collateralRatioBase cdp_par_big = Double.of_uint64 1 /\
  (CUserCDP_lt cdp_par cdp_par_big = true <->
   regid_lt (ownerRegId cdp_par) (ownerRegId cdp_par_big) = true \/
   (ownerRegId cdp_par = ownerRegId cdp_par_big /\
    cdpTxId cdp_par < cdpTxId cdp_par_big)).
Proof.
  apply (par_records_order_by_owner cdp_par cdp_par_big);
    try (apply decoded_mk_cdp; vm_compute; intuition discriminate);
    reflexivity.
Defined.

Lemma zero_stake_sorts_first_witness :
  CUserCDP_lt cdp_broke cdp_par = true /\ CUserCDP_lt cdp_par cdp_broke = false.
Proof.
  apply (zero_stake_sorts_first cdp_broke cdp_par);
    try (apply decoded_mk_cdp; vm_compute; intuition discriminate);
    reflexivity.
Defined.

Lemma order_total_on_live_records_witness :
  CUserCDP_lt cdp_par cdp_double = negb (CUserCDP_lt cdp_double cdp_par).
Proof.
  apply (order_total_on_live_records cdp_par cdp_double);
    try (apply decoded_mk_cdp; vm_compute; intuition discriminate).
  - left. reflexivity.
  - left. reflexivity.
  - vm_compute. discriminate.
Defined.

Lemma wf_cdp_stale : wf_cdp cdp_stale.
Proof. vm_compute. intuition discriminate. Qed.

Lemma wf_cdp_double : wf_cdp cdp_double.
Proof. vm_compute. intuition discriminate. Qed.

Lemma serialize_determines_persisted_witness :
  (Serialize cdp_stale = Serialize cdp_double <->
   same_persisted cdp_stale cdp_double) /\
  (Serialize cdp_stale ++ [] = Serialize cdp_double ++ [] ->
   same_persisted cdp_stale cdp_double /\ @nil Byte.byte = []).
Proof.
  apply (serialize_determines_persisted cdp_stale cdp_double [] []).
  - exact wf_cdp_stale.
  - exact wf_cdp_double.
Defined.

Lemma roundtrip_identity_iff_fresh_ratio_witness :
  Unserialize (Serialize cdp_stale ++ []) = Some (cdp_stale, []) <->
  collateralRatioBase cdp_stale =
    Double.ratio_of (totalStakedBcoins cdp_stale) (totalOwedScoins cdp_stale).
Proof.
  apply (roundtrip_identity_iff_fresh_ratio cdp_stale []). exact wf_cdp_stale.
Defined.

Lemma emptied_record_roundtrip_witness :
  exists c',
    Unserialize (Serialize (SetEmpty cdp_par) ++ []) = Some (c', []) /\
    IsEmpty c' = true /\
    ownerRegId c' = ownerRegId cdp_par /\
    collateralRatioBase c' = S754_nan /\
    c' = SetEmpty c' /\
    forall x, CUserCDP_lt c' x = false /\ CUserCDP_lt x c' = false.
Proof. apply (emptied_record_roundtrip cdp_par []). Defined.

Lemma ToJson_determines_record_witness :
  length (Json.ToJson cdp_par) = 6%nat /\
  (Json.ToJson cdp_par = Json.ToJson cdp_stale -> cdp_par = cdp_stale).
Proof.
  apply (ToJson_determines_record cdp_par cdp_stale);
    vm_compute; intuition discriminate.
Defined.

Lemma copied_then_chained_duplicates_witness :
  mem_chain_of 1 {[root_ptr := root_with_par]}
    (cdpMemCache (SetBaseView root_ptr root_with_par)) =
    MemCache.SetBase (Some root_ptr) (cdpMemCache root_with_par) ::
    mem_chain_of 0 {[root_ptr := root_with_par]} (cdpMemCache root_with_par) /\
  MemCache.cdps (MemCache.SetBase (Some root_ptr) (cdpMemCache root_with_par)) =
    MemCache.cdps (cdpMemCache root_with_par) /\
  MemCache.totalStakedBcoins
    (MemCache.SetBase (Some root_ptr) (cdpMemCache root_with_par)) =
    MemCache.totalStakedBcoins (cdpMemCache root_with_par) /\
  ValueCache.mapData (cdpCache (SetBaseView root_ptr root_with_par)) =
    ValueCache.mapData (cdpCache root_with_par) /\
  ValueCache.pBase (cdpCache (SetBaseView root_ptr root_with_par)) = Some root_ptr.
Proof.
  apply (copied_then_chained_duplicates {[root_ptr := root_with_par]} root_ptr
           root_with_par root_with_par 0).
  - apply lookup_singleton_eq.
  - unfold CCdpDBCache_from_base. rewrite lookup_singleton_eq.
    destruct root_with_par. reflexivity.
Defined.

(** The stale record and the fresh one share a slot, and the stale one does
    not come back from the wire as it was. *)
Example stale_record_collides :
  same_slot cdp_par cdp_stale = true /\ cdp_par <> cdp_stale /\
  Unserialize (Serialize cdp_stale) <> Some (cdp_stale, []).
Proof. repeat split; vm_compute; discriminate. Qed.

(** A positive and a negative zero share a slot though the composite keys
    differ. *)
Example zeros_share_a_slot :
  same_slot cdp_broke cdp_broke_neg = true /\
  order_key cdp_broke <> order_key cdp_broke_neg.
Proof. split; [reflexivity|discriminate]. Qed.

(** A record whose ratio is a NaN, saved into a layer that holds one
    record, takes that record's node: the map still has one node, with the
    key it had. *)
Example nan_record_takes_first_node :
  MemCache.cdps (MemCache.SaveCdp cdp_idle_1 (cdpMemCache root_with_par)) =
  [(cdp_par, MemCache.flag_valid)].
Proof. reflexivity. Qed.

End ExtraChecks.
